(** * antigravity-claude-proxy: a shallow embedding of the gateway's utilities

    The development follows the layout of the repository:

    - [JS]             the fragment of JavaScript values the sources compute on;
    - [Mappers]        src/utils/mappers.js ([coerceToBool], [remapFunctionCallArgs]);
    - [SignatureCache] the signature cache module (two TTL-bounded [Map]s);
    - [Database]       src/auth/database.js (lazy module loading, the connection
                       cache, [getAuthStatus], [isDatabaseAccessible]);
    - [AccountPool]    the account pool of the specification (its source is not
                       part of the tree);
    - [Dispatcher]     the attempt loop of the specification (its source is not
                       part of the tree either).

    JavaScript objects used as dictionaries and [Map]s are finite maps with
    string keys; [Date.now()] is an explicit argument in milliseconds. *)

From Stdlib Require Import ZArith String Ascii List Bool Lia.
From Stdlib Require Import Floats.SpecFloat.
From stdpp Require Import base option gmap strings list fin_maps.

#[local] Set Warnings "-register-all".
#[local] Open Scope string_scope.

(* ===================================================================== *)
(** * JavaScript values                                                   *)
(* ===================================================================== *)

Module JS.

(** The values that reach the modelled functions: what [JSON.parse] can
    produce, plus [undefined].  Numbers are IEEE-754 doubles, kept in the
    Standard Library's specification format so that [NaN] and the two zeros
    behave as in the source. *)
Inductive jsval : Type :=
  | JUndefined
  | JNull
  | JBool (b : bool)
  | JNum (n : spec_float)
  | JStr (s : string)
  | JArr (xs : list jsval)
  | JObj (o : gmap string jsval).

(** [v === undefined]. *)
Definition is_undefined (v : jsval) : bool :=
  match v with JUndefined => true | _ => false end.

(** Property read [o.k] (or [o[k]]) on a plain object: an own property or
    [undefined].  None of the names the sources read is a member of
    [Object.prototype]. *)
Definition get (o : gmap string jsval) (k : string) : jsval :=
  default JUndefined (o !! k).

(** [x !== 0] on a number: IEEE comparison, so [-0 !== 0] is false and
    [NaN !== 0] is true. *)
Definition num_neq_zero (n : spec_float) : bool :=
  negb (SFeqb n (S754_zero false)).

(** [!!v]: JavaScript truthiness. *)
Definition truthy (v : jsval) : bool :=
  match v with
  | JUndefined | JNull => false
  | JBool b => b
  | JNum n => match n with S754_nan => false | _ => num_neq_zero n end
  | JStr s => negb (String.eqb s "")
  | JArr _ | JObj _ => true
  end.

(** Strings are sequences of 8-bit characters, standing for the JavaScript
    strings whose code units are below 256; [String.length] is [.length].

    [String.prototype.toLowerCase]: the ASCII capitals are mapped and the
    rest is kept.  The sources only compare the result with ASCII literals
    (['true'], ['grep'], ...), and no character outside ASCII lower-cases to
    a letter of those literals, so the comparisons agree with the full
    Unicode mapping. *)
Definition lower_char (c : ascii) : ascii :=
  let n := nat_of_ascii c in
  if (65 <=? n)%nat && (n <=? 90)%nat then ascii_of_nat (n + 32) else c.

Fixpoint toLowerCase (s : string) : string :=
  match s with
  | EmptyString => EmptyString
  | String c r => String (lower_char c) (toLowerCase r)
  end.

(** [Array.prototype.includes] on an array of string literals. *)
Definition str_in (s : string) (l : list string) : bool :=
  existsb (String.eqb s) l.

(** [String.prototype.includes]: [needle] occurs somewhere in [hay]. *)
Fixpoint includes (needle hay : string) : bool :=
  if String.prefix needle hay then true
  else match hay with
       | EmptyString => false
       | String _ r => includes needle r
       end.

(** [Array.prototype.join(',')] on an array of strings. *)
Fixpoint join_comma (l : list string) : string :=
  match l with
  | [] => ""
  | [s] => s
  | s :: r => s ++ "," ++ join_comma r
  end.

(** [xs.filter(v => typeof v === 'string')], with the strings unwrapped. *)
Fixpoint filter_strings (xs : list jsval) : list string :=
  match xs with
  | [] => []
  | JStr s :: r => s :: filter_strings r
  | _ :: r => filter_strings r
  end.

Lemma get_insert_eq o k v : get (<[k:=v]> o) k = v.
Proof. unfold get. by rewrite lookup_insert_eq. Qed.

Lemma get_insert_ne o k k' v : k ≠ k' → get (<[k:=v]> o) k' = get o k'.
Proof. intros. unfold get. by rewrite lookup_insert_ne. Qed.

Lemma get_delete_eq o k : get (delete k o) k = JUndefined.
Proof. unfold get. by rewrite lookup_delete_eq. Qed.

Lemma get_delete_ne o k k' : k ≠ k' → get (delete k o) k' = get o k'.
Proof. intros. unfold get. by rewrite lookup_delete_ne. Qed.

Lemma is_undefined_true v : is_undefined v = true ↔ v = JUndefined.
Proof. by destruct v. Qed.

Lemma is_undefined_false v : is_undefined v = false ↔ v ≠ JUndefined.
Proof. by destruct v. Qed.

Lemma prefix_app (p r : string) : String.prefix p (p ++ r) = true.
Proof.
  induction p as [|c p IH]; simpl.
  - by destruct r.
  - destruct (ascii_dec c c); [exact IH | congruence].
Qed.

Lemma includes_of_prefix needle hay :
  String.prefix needle hay = true → includes needle hay = true.
Proof. intros H. destruct hay; unfold includes; fold includes; by rewrite H. Qed.

Lemma includes_prefix needle rest : includes needle (needle ++ rest) = true.
Proof. apply includes_of_prefix, prefix_app. Qed.

End JS.

(* ===================================================================== *)
(** * src/utils/mappers.js                                                *)
(* ===================================================================== *)

Module Mappers.
Import JS.

(** [coerceToBool(value)]; the result [null] is [None]. *)
Definition coerceToBool (value : jsval) : option bool :=
  match value with
  | JBool b => Some b
  | JStr s =>
      let lower := toLowerCase s in
      if str_in lower ["true"; "yes"; "1"; "-n"] then Some true
      else if str_in lower ["false"; "no"; "0"] then Some false
      else None
  | JNum n => Some (num_neq_zero n)
  | _ => None
  end.

(** The block the source repeats for [description], [query] and
    [ignore_case]:
<<
    if (args.from !== undefined) {
        const v = args.from;
        delete args.from;
        if (args.to === undefined) { args.to = v; }
    }
>> *)
Definition move_property (from to : string) (args : gmap string jsval)
  : gmap string jsval :=
  let v := get args from in
  if is_undefined v then args
  else
    let args1 := delete from args in
    if is_undefined (get args1 to) then <[to:=v]> args1 else args1.

(** The string computed from [includes] (empty when it is neither an array
    nor a string). *)
Definition include_string (includes : jsval) : string :=
  match includes with
  | JArr xs => join_comma (filter_strings xs)
  | JStr s => s
  | _ => ""
  end.

(** ["includes" (array or string) -> "include" (string)]. *)
Definition remap_includes (args : gmap string jsval) : gmap string jsval :=
  let includes := get args "includes" in
  if is_undefined includes then args
  else
    let args1 := delete "includes" args in
    if is_undefined (get args1 "include") then
      let includeStr := include_string includes in
      if truthy (JStr includeStr) then <["include":=JStr includeStr]> args1
      else args1
    else args1.

(** ["-n" -> "lineNumbers"], through [coerceToBool]. *)
Definition remap_dash_n (args : gmap string jsval) : gmap string jsval :=
  let nVal := get args "-n" in
  if is_undefined nVal then args
  else
    let args1 := delete "-n" args in
    match coerceToBool nVal with
    | Some boolVal =>
        if is_undefined (get args1 "lineNumbers")
        then <["lineNumbers":=JBool boolVal]> args1
        else args1
    | None => args1
    end.

Definition boolParams : list string :=
  ["ignoreCase"; "lineNumbers"; "caseSensitive"; "regex"; "wholeWord"].

(** One turn of the loop over [boolParams]. *)
Definition coerce_param (args : gmap string jsval) (param : string)
  : gmap string jsval :=
  match get args param with
  | JStr s =>
      match coerceToBool (JStr s) with
      | Some boolVal => <[param:=JBool boolVal]> args
      | None => args
      end
  | _ => args
  end.

Definition remap_grep (args : gmap string jsval) : gmap string jsval :=
  let args := move_property "description" "pattern" args in
  let args := move_property "query" "pattern" args in
  let args := remap_includes args in
  let args := move_property "ignore_case" "ignoreCase" args in
  let args := remap_dash_n args in
  foldl coerce_param args boolParams.

Definition remap_glob (args : gmap string jsval) : gmap string jsval :=
  let args := move_property "description" "pattern" args in
  move_property "query" "pattern" args.

(** The body of [remapFunctionCallArgs] once [args] is known to be a plain
    object: the state of the object after the call. *)
Definition remap_object (toolName : string) (args : gmap string jsval)
  : gmap string jsval :=
  let lowerToolName := toLowerCase toolName in
  if String.eqb lowerToolName "grep" then remap_grep args
  else if String.eqb lowerToolName "glob" then remap_glob args
  else args.

(** [remapFunctionCallArgs(toolName, args)] mutates [args] in place and
    returns nothing; the model returns the value [args] denotes after the
    call.  The guard [!args || typeof args !== 'object'] lets only objects
    and arrays through.  On an array every property the function reads is
    [undefined], except [includes], which is the inherited method
    [Array.prototype.includes]: there [delete] removes nothing, the value is
    neither an array nor a string, [includeStr] stays empty and nothing is
    assigned, so an array is left as it is. *)
Definition remapFunctionCallArgs (toolName : string) (args : jsval) : jsval :=
  match args with
  | JObj o => JObj (remap_object toolName o)
  | _ => args
  end.

End Mappers.

(* ===================================================================== *)
(** * Properties of the argument remapping                                *)
(* ===================================================================== *)

Module MappersSpec.
Import JS Mappers.

(** The cases of the repository's test-mappers suite. *)
Example coerceToBool_tests :
  coerceToBool (JBool true) = Some true ∧
  coerceToBool (JStr "TRUE") = Some true ∧
  coerceToBool (JStr "-n") = Some true ∧
  coerceToBool (JStr "FALSE") = Some false ∧
  coerceToBool (JStr "random") = None ∧
  coerceToBool (JNum (S754_finite false 100 0)) = Some true ∧
  coerceToBool (JNum (S754_zero true)) = Some false ∧
  coerceToBool (JNum S754_nan) = Some true.
Proof. repeat split; reflexivity. Qed.

Example remap_grep_description_test :
  remap_object "grep" {["description" := JStr "test pattern"]}
  = {["pattern" := JStr "test pattern"]}.
Proof. by vm_compute. Qed.

Example remap_grep_includes_test :
  remap_object "Grep" {["includes" := JArr [JStr "*.js"; JNull; JStr "*.ts"]]}
  = {["include" := JStr "*.js,*.ts"]}.
Proof. by vm_compute. Qed.

Example remap_grep_flags_test :
  remap_object "grep" {["ignore_case" := JBool true; "-n" := JStr "true"]}
  = {["ignoreCase" := JBool true; "lineNumbers" := JBool true]}.
Proof. by vm_compute. Qed.

Example remap_grep_coerce_test :
  remap_object "grep"
    {["ignoreCase" := JStr "true"; "lineNumbers" := JStr "yes";
      "caseSensitive" := JStr "false"; "regex" := JStr "1";
      "wholeWord" := JStr "no"]}
  = {["ignoreCase" := JBool true; "lineNumbers" := JBool true;
      "caseSensitive" := JBool false; "regex" := JBool true;
      "wholeWord" := JBool false]}.
Proof. by vm_compute. Qed.

Example remap_glob_query_test :
  remap_object "glob" {["query" := JStr "*.js"]} = {["pattern" := JStr "*.js"]}.
Proof. by vm_compute. Qed.

Example remap_unknown_tool_test :
  remap_object "unknown_tool" {["description" := JStr "test"]}
  = {["description" := JStr "test"]}.
Proof. by vm_compute. Qed.

(** ** [move_property] *)

Lemma move_property_id from to o :
  get o from = JUndefined → move_property from to o = o.
Proof. intros H. unfold move_property. by rewrite H. Qed.

Lemma move_property_from from to o :
  from ≠ to → get (move_property from to o) from = JUndefined.
Proof.
  intros Hne. unfold move_property.
  destruct (is_undefined (get o from)) eqn:Hf.
  - by apply is_undefined_true.
  - destruct (is_undefined (get (delete from o) to)).
    + rewrite get_insert_ne by done. apply get_delete_eq.
    + apply get_delete_eq.
Qed.

Lemma move_property_lookup_from from to o :
  from ≠ to → get o from ≠ JUndefined →
  move_property from to o !! from = None.
Proof.
  intros Hne Hdef. unfold move_property.
  apply is_undefined_false in Hdef. rewrite Hdef.
  destruct (is_undefined (get (delete from o) to)).
  - rewrite lookup_insert_ne by done. apply lookup_delete_eq.
  - apply lookup_delete_eq.
Qed.

Lemma move_property_other from to o k :
  k ≠ from → k ≠ to → move_property from to o !! k = o !! k.
Proof.
  intros Hf Ht. unfold move_property.
  destruct (is_undefined (get o from)); [done|].
  destruct (is_undefined (get (delete from o) to)).
  - rewrite lookup_insert_ne by done. by rewrite lookup_delete_ne.
  - by rewrite lookup_delete_ne.
Qed.

(** A target that already holds a value keeps it. *)
Lemma move_property_keeps_target from to o v :
  from ≠ to → o !! to = Some v → v ≠ JUndefined →
  move_property from to o !! to = Some v.
Proof.
  intros Hne Hto Hv. unfold move_property.
  destruct (is_undefined (get o from)); [done|].
  assert (get (delete from o) to = v) as ->.
  { rewrite get_delete_ne by done. unfold get. by rewrite Hto. }
  apply is_undefined_false in Hv. rewrite Hv.
  by rewrite lookup_delete_ne.
Qed.

(** A step never makes a property it does not assign defined. *)
Lemma move_property_undef from to o k :
  k ≠ to → get o k = JUndefined → get (move_property from to o) k = JUndefined.
Proof.
  intros Ht Hk. destruct (decide (k = from)) as [->|Hf].
  - unfold move_property.
    destruct (is_undefined (get o from)); [done|].
    destruct (is_undefined (get (delete from o) to)).
    + rewrite get_insert_ne by done. apply get_delete_eq.
    + apply get_delete_eq.
  - unfold get in *. by rewrite move_property_other.
Qed.


(** ** [remap_includes] and [remap_dash_n] *)

Lemma remap_includes_id o :
  get o "includes" = JUndefined → remap_includes o = o.
Proof. intros H. unfold remap_includes. by rewrite H. Qed.

Lemma remap_includes_other o k :
  k ≠ "includes" → k ≠ "include" → remap_includes o !! k = o !! k.
Proof.
  intros H1 H2. unfold remap_includes.
  destruct (is_undefined (get o "includes")); [done|].
  destruct (is_undefined (get (delete "includes" o) "include")).
  - destruct (truthy _).
    + rewrite lookup_insert_ne by done. by rewrite lookup_delete_ne.
    + by rewrite lookup_delete_ne.
  - by rewrite lookup_delete_ne.
Qed.

Lemma remap_includes_undef o k :
  k ≠ "include" → get o k = JUndefined → get (remap_includes o) k = JUndefined.
Proof.
  intros Ht Hk. destruct (decide (k = "includes")) as [->|Hf].
  - unfold remap_includes.
    destruct (is_undefined (get o "includes")); [done|].
    destruct (is_undefined (get (delete "includes" o) "include")).
    + destruct (truthy _).
      * rewrite get_insert_ne by done. apply get_delete_eq.
      * apply get_delete_eq.
    + apply get_delete_eq.
  - unfold get in *. by rewrite remap_includes_other.
Qed.

Lemma remap_includes_from o : get (remap_includes o) "includes" = JUndefined.
Proof.
  destruct (is_undefined (get o "includes")) eqn:E.
  - apply remap_includes_undef; [done|]. by apply is_undefined_true.
  - unfold remap_includes. rewrite E.
    destruct (is_undefined (get (delete "includes" o) "include")).
    + destruct (truthy _).
      * rewrite get_insert_ne by done. apply get_delete_eq.
      * apply get_delete_eq.
    + apply get_delete_eq.
Qed.

Lemma remap_dash_n_id o : get o "-n" = JUndefined → remap_dash_n o = o.
Proof. intros H. unfold remap_dash_n. by rewrite H. Qed.

Lemma remap_dash_n_other o k :
  k ≠ "-n" → k ≠ "lineNumbers" → remap_dash_n o !! k = o !! k.
Proof.
  intros H1 H2. unfold remap_dash_n.
  destruct (is_undefined (get o "-n")); [done|].
  destruct (coerceToBool _).
  - destruct (is_undefined (get (delete "-n" o) "lineNumbers")).
    + rewrite lookup_insert_ne by done. by rewrite lookup_delete_ne.
    + by rewrite lookup_delete_ne.
  - by rewrite lookup_delete_ne.
Qed.

Lemma remap_dash_n_from o : get (remap_dash_n o) "-n" = JUndefined.
Proof.
  unfold remap_dash_n.
  destruct (is_undefined (get o "-n")) eqn:E; [by apply is_undefined_true|].
  destruct (coerceToBool _).
  - destruct (is_undefined (get (delete "-n" o) "lineNumbers")).
    + rewrite get_insert_ne by done. apply get_delete_eq.
    + apply get_delete_eq.
  - apply get_delete_eq.
Qed.

Lemma remap_dash_n_undef o k :
  k ≠ "lineNumbers" → get o k = JUndefined → get (remap_dash_n o) k = JUndefined.
Proof.
  intros Ht Hk. destruct (decide (k = "-n")) as [->|Hf].
  - apply remap_dash_n_from.
  - unfold get in *. by rewrite remap_dash_n_other.
Qed.

(** ** The loop over [boolParams] *)

(** [param] holds nothing the loop would rewrite. *)
Definition settled (o : gmap string jsval) (param : string) : Prop :=
  match get o param with
  | JStr s => coerceToBool (JStr s) = None
  | _ => True
  end.

Lemma coerce_param_id o p : settled o p → coerce_param o p = o.
Proof.
  unfold settled, coerce_param. destruct (get o p); try done.
  by intros ->.
Qed.

Lemma coerce_param_other o p k : k ≠ p → coerce_param o p !! k = o !! k.
Proof.
  intros Hne. unfold coerce_param.
  destruct (get o p); try done.
  destruct (coerceToBool _); [|done]. by rewrite lookup_insert_ne.
Qed.

Lemma coerce_param_settles o p : settled (coerce_param o p) p.
Proof.
  unfold settled, coerce_param.
  destruct (get o p) eqn:E; rewrite ?E; try done.
  destruct (coerceToBool (JStr s)) eqn:C.
  - by rewrite get_insert_eq.
  - by rewrite E.
Qed.

Lemma coerce_param_settled o p q : settled o q → settled (coerce_param o p) q.
Proof.
  intros H. destruct (decide (q = p)) as [->|Hne].
  - apply coerce_param_settles.
  - unfold settled, get in *. by rewrite coerce_param_other.
Qed.

(** The loop only rewrites strings, so an undefined property stays so. *)
Lemma coerce_param_undef o p k :
  get o k = JUndefined → get (coerce_param o p) k = JUndefined.
Proof.
  intros Hk. destruct (decide (k = p)) as [->|Hne].
  - unfold coerce_param. by rewrite Hk.
  - unfold get in *. by rewrite coerce_param_other.
Qed.

Lemma coerce_loop_undef l o k :
  get o k = JUndefined → get (foldl coerce_param o l) k = JUndefined.
Proof.
  revert o. induction l as [|p l IH]; intros o Hk; [done|].
  simpl. by apply IH, coerce_param_undef.
Qed.

Lemma coerce_loop_other l o k :
  k ∉ l → foldl coerce_param o l !! k = o !! k.
Proof.
  revert o. induction l as [|p l IH]; intros o Hk; [done|].
  simpl. apply not_elem_of_cons in Hk as [Hp Hl].
  rewrite IH by done. by apply coerce_param_other.
Qed.

Lemma coerce_loop_settled l o q :
  settled o q → settled (foldl coerce_param o l) q.
Proof.
  revert o. induction l as [|p l IH]; intros o Hq; [done|].
  simpl. by apply IH, coerce_param_settled.
Qed.

Lemma coerce_loop_settles l o q :
  q ∈ l → settled (foldl coerce_param o l) q.
Proof.
  revert o. induction l as [|p l IH]; intros o Hq.
  - by apply elem_of_nil in Hq.
  - simpl. apply elem_of_cons in Hq as [->|Hq].
    + apply coerce_loop_settled, coerce_param_settles.
    + by apply IH.
Qed.

Lemma coerce_loop_id l o :
  (∀ q, q ∈ l → settled o q) → foldl coerce_param o l = o.
Proof.
  induction l as [|p l IH]; intros H; [done|].
  simpl. rewrite coerce_param_id by (apply H; left).
  apply IH. intros q Hq. apply H. by right.
Qed.


(** ** Canonical arguments *)

(** Arguments in canonical form for [grep]: no malformed key holds a value
    and no boolean parameter holds a string that reads as a boolean. *)
Definition canonical_grep (o : gmap string jsval) : Prop :=
  get o "description" = JUndefined ∧ get o "query" = JUndefined ∧
  get o "includes" = JUndefined ∧ get o "ignore_case" = JUndefined ∧
  get o "-n" = JUndefined ∧ ∀ q, q ∈ boolParams → settled o q.

Definition canonical_glob (o : gmap string jsval) : Prop :=
  get o "description" = JUndefined ∧ get o "query" = JUndefined.

(** Follows one property through the steps of [remap_grep], from the last
    step back to the one that clears it. *)
Ltac undef_chain :=
  repeat lazymatch goal with
  | |- get (foldl coerce_param _ _) _ = JUndefined => apply coerce_loop_undef
  | |- get (remap_dash_n _) "-n" = JUndefined => apply remap_dash_n_from
  | |- get (remap_dash_n _) _ = JUndefined => apply remap_dash_n_undef; [done|]
  | |- get (remap_includes _) "includes" = JUndefined => apply remap_includes_from
  | |- get (remap_includes _) _ = JUndefined => apply remap_includes_undef; [done|]
  | |- get (move_property ?k _ _) ?k = JUndefined => apply move_property_from; done
  | |- get (move_property _ _ _) _ = JUndefined => apply move_property_undef; [done|]
  end.

Lemma remap_grep_canonical o : canonical_grep (remap_grep o).
Proof.
  unfold canonical_grep, remap_grep.
  repeat lazymatch goal with |- _ ∧ _ => split end; [undef_chain..|].
  intros q Hq. by apply coerce_loop_settles.
Qed.

Lemma remap_grep_canonical_id o : canonical_grep o → remap_grep o = o.
Proof.
  intros (Hd & Hq & Hi & Hc & Hn & Hb). unfold remap_grep.
  rewrite (move_property_id "description") by done.
  rewrite (move_property_id "query") by done.
  rewrite remap_includes_id by done.
  rewrite (move_property_id "ignore_case") by done.
  rewrite remap_dash_n_id by done.
  by apply coerce_loop_id.
Qed.

Lemma remap_glob_canonical o : canonical_glob (remap_glob o).
Proof. unfold canonical_glob, remap_glob. split; undef_chain. Qed.

Lemma remap_glob_canonical_id o : canonical_glob o → remap_glob o = o.
Proof.
  intros [Hd Hq]. unfold remap_glob.
  rewrite (move_property_id "description") by done.
  by rewrite (move_property_id "query").
Qed.

Lemma remap_object_idempotent toolName o :
  remap_object toolName (remap_object toolName o) = remap_object toolName o.
Proof.
  unfold remap_object.
  destruct (String.eqb (toLowerCase toolName) "grep").
  - apply remap_grep_canonical_id, remap_grep_canonical.
  - destruct (String.eqb (toLowerCase toolName) "glob"); [|done].
    apply remap_glob_canonical_id, remap_glob_canonical.
Qed.

(** Re-applying the remap to arguments already in canonical form is a
    no-op. *)
Lemma remap_object_canonical_noop toolName o :
  canonical_grep o → remap_object toolName o = o.
Proof.
  intros Hc. unfold remap_object.
  destruct (String.eqb _ "grep"); [by apply remap_grep_canonical_id|].
  destruct (String.eqb _ "glob"); [|done].
  apply remap_glob_canonical_id. destruct Hc as (? & ? & _). by split.
Qed.

Example canonical_grep_args :
  canonical_grep
    {["pattern" := JStr "TODO"; "ignoreCase" := JBool true;
      "lineNumbers" := JBool false; "include" := JStr "*.js"]}.
Proof.
  repeat split; try reflexivity.
  intros q Hq. unfold boolParams in Hq.
  repeat (apply elem_of_cons in Hq as [->|Hq]; [by vm_compute|]).
  by apply elem_of_nil in Hq.
Qed.

(** C6. [remapFunctionCallArgs] is idempotent: for every tool name and every
    value passed as [args], a second call leaves the arguments in the state
    the first call produced.  (Arguments already in canonical form are a
    fixed point: [remap_object_canonical_noop].) *)
Theorem remapFunctionCallArgs_idempotent (toolName : string) (args : jsval) :
  remapFunctionCallArgs toolName (remapFunctionCallArgs toolName args)
  = remapFunctionCallArgs toolName args.
Proof.
  destruct args; simpl; try reflexivity.
  f_equal. apply remap_object_idempotent.
Qed.

(** ** The canonical key is never overwritten *)

(** Closes [k ∉ boolParams] for a literal [k]. *)
Ltac not_bool_param :=
  let H := fresh in
  unfold boolParams; intros H;
  repeat (apply elem_of_cons in H as [?|H]; [done|]);
  by apply elem_of_nil in H.

Lemma remap_glob_keeps_pattern o v :
  o !! "pattern" = Some v → v ≠ JUndefined → remap_glob o !! "pattern" = Some v.
Proof.
  intros Hp Hv. unfold remap_glob.
  do 2 (apply move_property_keeps_target; [done| |done]). done.
Qed.

Lemma remap_grep_keeps_pattern o v :
  o !! "pattern" = Some v → v ≠ JUndefined → remap_grep o !! "pattern" = Some v.
Proof.
  intros Hp Hv. unfold remap_grep.
  rewrite coerce_loop_other by not_bool_param.
  rewrite remap_dash_n_other, move_property_other, remap_includes_other by done.
  by apply remap_glob_keeps_pattern.
Qed.

Lemma remap_glob_deletes o :
  (get o "description" ≠ JUndefined → remap_glob o !! "description" = None) ∧
  (get o "query" ≠ JUndefined → remap_glob o !! "query" = None).
Proof.
  unfold remap_glob. split; intros H.
  - rewrite move_property_other by done.
    by apply move_property_lookup_from.
  - apply move_property_lookup_from; [done|].
    unfold get in *. by rewrite move_property_other.
Qed.

Lemma remap_grep_deletes o k :
  k = "description" ∨ k = "query" →
  get o k ≠ JUndefined → remap_grep o !! k = None.
Proof.
  intros Hk Hdef. unfold remap_grep.
  rewrite coerce_loop_other by (destruct Hk; subst; not_bool_param).
  rewrite remap_dash_n_other, move_property_other, remap_includes_other
    by (destruct Hk; by subst).
  destruct Hk; subst; by apply remap_glob_deletes.
Qed.

(** C9. For [grep] and [glob] (in any letter case), when the arguments hold
    a value under the canonical key [pattern], that value is still there
    after [remapFunctionCallArgs], and a malformed key ([description],
    [query]) that held a value has been deleted: its value is dropped and
    never written over [pattern]. *)
Theorem remap_never_overwrites_pattern
    (toolName : string) (o : gmap string jsval) (v : jsval) :
  toLowerCase toolName = "grep" ∨ toLowerCase toolName = "glob" →
  o !! "pattern" = Some v → v ≠ JUndefined →
  ∃ o', remapFunctionCallArgs toolName (JObj o) = JObj o' ∧
        o' !! "pattern" = Some v ∧
        (get o "description" ≠ JUndefined → o' !! "description" = None) ∧
        (get o "query" ≠ JUndefined → o' !! "query" = None).
Proof.
  intros Htool Hp Hv. eexists; split; [reflexivity|].
  unfold remap_object. destruct Htool as [H | H]; rewrite H.
  - rewrite String.eqb_refl. split; [by apply remap_grep_keeps_pattern|].
    split; intros Hdef; apply remap_grep_deletes; auto.
  - change (String.eqb "glob" "grep") with false. rewrite String.eqb_refl.
    split; [by apply remap_glob_keeps_pattern|]. apply remap_glob_deletes.
Qed.

Lemma remap_never_overwrites_pattern_witness :
  ∃ o', remapFunctionCallArgs "Grep"
          (JObj {["description" := JStr "find todos"; "query" := JStr "x";
                  "pattern" := JStr "TODO"]}) = JObj o' ∧
        o' !! "pattern" = Some (JStr "TODO") ∧
        (get {["description" := JStr "find todos"; "query" := JStr "x";
               "pattern" := JStr "TODO"]} "description" ≠ JUndefined →
         o' !! "description" = None) ∧
        (get {["description" := JStr "find todos"; "query" := JStr "x";
               "pattern" := JStr "TODO"]} "query" ≠ JUndefined →
         o' !! "query" = None).
Proof.
  apply (remap_never_overwrites_pattern "Grep" _ (JStr "TODO")).
  - left. reflexivity.
  - reflexivity.
  - discriminate.
Defined.

End MappersSpec.

(* ===================================================================== *)
(** * The signature cache                                                 *)
(* ===================================================================== *)

Module SignatureCache.
#[local] Open Scope Z_scope.

(** The two entry shapes, [{signature, timestamp}] and
    [{modelFamily, timestamp}]. *)
Record SignatureEntry : Type :=
  { signature : string; sig_timestamp : Z }.

Record ThinkingEntry : Type :=
  { modelFamily : string; thinking_timestamp : Z }.

Class Timestamped (E : Type) : Type := timestamp : E → Z.

#[export] Instance SignatureEntry_timestamped : Timestamped SignatureEntry :=
  sig_timestamp.
#[export] Instance ThinkingEntry_timestamped : Timestamped ThinkingEntry :=
  thinking_timestamp.

(** The module state: the two module-level [Map]s. *)
Record Caches : Type :=
  { signatureCache : gmap string SignatureEntry;
    thinkingSignatureCache : gmap string ThinkingEntry }.

Definition initial : Caches :=
  {| signatureCache := ∅; thinkingSignatureCache := ∅ |}.

(** What a caller (or the interval timer, for [CleanupCache]) can do to the
    module. *)
Inductive call : Type :=
  | CacheSignature (toolUseId sig : string)
  | GetCachedSignature (toolUseId : string)
  | CacheThinkingSignature (sig family : string)
  | GetCachedSignatureFamily (sig : string)
  | ClearThinkingSignatureCache
  | CleanupCache.

Section Cache.

(** The two constants imported from constants.js. *)
Variable GEMINI_SIGNATURE_CACHE_TTL_MS : Z.
Variable MIN_SIGNATURE_LENGTH : Z.

(** [now - entry.timestamp > GEMINI_SIGNATURE_CACHE_TTL_MS]. *)
Definition expired {E} `{Timestamped E} (now : Z) (entry : E) : bool :=
  GEMINI_SIGNATURE_CACHE_TTL_MS <? now - timestamp entry.

(** One turn of [for (const [key, entry] of cache.entries())]. *)
Definition sweep_entry {E} `{Timestamped E} (now : Z)
    (cache : gmap string E) (ke : string * E) : gmap string E :=
  if expired now ke.2 then delete ke.1 cache else cache.

(** The loop over one [Map]: its entries are visited once each, and the
    visited entry is deleted from the map when it has expired (deleting the
    current entry of a [Map] does not disturb its iteration). *)
Definition sweep {E} `{Timestamped E} (now : Z) (cache : gmap string E)
  : gmap string E :=
  foldl (sweep_entry now) cache (map_to_list cache).

Definition cleanupExpiredEntries (now : Z) (st : Caches) : Caches :=
  {| signatureCache := sweep now (signatureCache st);
     thinkingSignatureCache := sweep now (thinkingSignatureCache st) |}.

Definition cleanupCache (now : Z) (st : Caches) : Caches :=
  cleanupExpiredEntries now st.

(** [cacheSignature(toolUseId, signature)] at time [now].  The arguments are
    strings, as documented; the only falsy string is the empty one. *)
Definition cacheSignature (now : Z) (toolUseId sig : string) (st : Caches)
  : Caches :=
  if String.eqb toolUseId "" || String.eqb sig "" then st
  else
    {| signatureCache :=
         <[toolUseId := {| signature := sig; sig_timestamp := now |}]>
           (signatureCache st);
       thinkingSignatureCache := thinkingSignatureCache st |}.

(** [getCachedSignature(toolUseId)] at time [now]: the result ([None] is
    [null]) and the state it leaves. *)
Definition getCachedSignature (now : Z) (toolUseId : string) (st : Caches)
  : option string * Caches :=
  if String.eqb toolUseId "" then (None, st)
  else
    match signatureCache st !! toolUseId with
    | None => (None, st)
    | Some entry =>
        if expired now entry then
          (None, {| signatureCache := delete toolUseId (signatureCache st);
                    thinkingSignatureCache := thinkingSignatureCache st |})
        else (Some (signature entry), st)
    end.

(** [cacheThinkingSignature(signature, modelFamily)] at time [now]. *)
Definition cacheThinkingSignature (now : Z) (sig family : string) (st : Caches)
  : Caches :=
  if String.eqb sig "" || (Z.of_nat (String.length sig) <? MIN_SIGNATURE_LENGTH)
  then st
  else
    {| signatureCache := signatureCache st;
       thinkingSignatureCache :=
         <[sig := {| modelFamily := family; thinking_timestamp := now |}]>
           (thinkingSignatureCache st) |}.

(** [getCachedSignatureFamily(signature)] at time [now]. *)
Definition getCachedSignatureFamily (now : Z) (sig : string) (st : Caches)
  : option string * Caches :=
  if String.eqb sig "" then (None, st)
  else
    match thinkingSignatureCache st !! sig with
    | None => (None, st)
    | Some entry =>
        if expired now entry then
          (None, {| signatureCache := signatureCache st;
                    thinkingSignatureCache :=
                      delete sig (thinkingSignatureCache st) |})
        else (Some (modelFamily entry), st)
    end.

Definition clearThinkingSignatureCache (st : Caches) : Caches :=
  {| signatureCache := signatureCache st; thinkingSignatureCache := ∅ |}.

(** The state after one call made at time [now]. *)
Definition exec (st : Caches) (c : Z * call) : Caches :=
  let now := c.1 in
  match c.2 with
  | CacheSignature id sig => cacheSignature now id sig st
  | GetCachedSignature id => (getCachedSignature now id st).2
  | CacheThinkingSignature sig family => cacheThinkingSignature now sig family st
  | GetCachedSignatureFamily sig => (getCachedSignatureFamily now sig st).2
  | ClearThinkingSignatureCache => clearThinkingSignatureCache st
  | CleanupCache => cleanupCache now st
  end.

(** The state after a history of timed calls, from module load. *)
Definition run (history : list (Z * call)) : Caches :=
  foldl exec initial history.


(** ** The sweep *)

Lemma expired_true {E} `{Timestamped E} now (e : E) :
  expired now e = true ↔ GEMINI_SIGNATURE_CACHE_TTL_MS < now - timestamp e.
Proof. unfold expired. apply Z.ltb_lt. Qed.

Lemma expired_false {E} `{Timestamped E} now (e : E) :
  expired now e = false ↔ now - timestamp e ≤ GEMINI_SIGNATURE_CACHE_TTL_MS.
Proof. unfold expired. apply Z.ltb_ge. Qed.

(** The loop, run over any list of entries: a key is gone as soon as one of
    the visited entries carries it and has expired. *)
Lemma sweep_loop_lookup {E} `{Timestamped E} now
    (l : list (string * E)) (cache : gmap string E) (k : string) :
  foldl (sweep_entry now) cache l !! k =
    if existsb (λ ke, bool_decide (ke.1 = k) && expired now ke.2) l
    then None else cache !! k.
Proof.
  revert cache. induction l as [|[k1 e1] l IH]; intros cache; [done|].
  cbn [foldl existsb]. rewrite IH. unfold sweep_entry. cbn [fst snd].
  destruct (existsb _ l).
  - by rewrite orb_true_r.
  - rewrite orb_false_r. destruct (expired now e1).
    + rewrite andb_true_r. case_bool_decide as Hk.
      * subst. apply lookup_delete_eq.
      * by apply lookup_delete_ne.
    + by rewrite andb_false_r.
Qed.

Lemma sweep_lookup {E} `{Timestamped E} now (cache : gmap string E) k :
  sweep now cache !! k =
    match cache !! k with
    | Some e => if expired now e then None else Some e
    | None => None
    end.
Proof.
  unfold sweep. rewrite sweep_loop_lookup.
  destruct (existsb _ _) eqn:Ex.
  - apply existsb_exists in Ex as ([k' e'] & Hin & Hke).
    apply andb_true_iff in Hke as [Hk He]. cbn [fst snd] in *.
    apply bool_decide_eq_true in Hk. subst k'.
    apply list_elem_of_In, elem_of_map_to_list in Hin.
    by rewrite Hin, He.
  - destruct (cache !! k) as [e|] eqn:Hk; [|done].
    destruct (expired now e) eqn:He; [|done].
    apply not_true_iff_false in Ex. exfalso. apply Ex.
    apply existsb_exists. exists (k, e). split.
    + by apply list_elem_of_In, elem_of_map_to_list.
    + cbn [fst snd]. rewrite He. by rewrite bool_decide_eq_true_2.
Qed.

(** The sweep of one map as a filter: the entries within their TTL. *)
Lemma sweep_filter {E} `{Timestamped E} now (cache : gmap string E) :
  sweep now cache =
  filter (λ ke, now - timestamp ke.2 ≤ GEMINI_SIGNATURE_CACHE_TTL_MS) cache.
Proof.
  apply map_eq. intros k. apply option_eq. intros e.
  rewrite map_lookup_filter_Some, sweep_lookup. cbn [snd].
  destruct (cache !! k) as [e'|]; [|split; [done | by intros [? _]]].
  destruct (expired now e') eqn:He.
  - apply expired_true in He. split; [done|]. intros [[= ->] ?]. lia.
  - apply expired_false in He. split; [by intros [= ->] | by intros [? _]].
Qed.


(** C5. One sweep ([cleanupExpiredEntries], or [cleanupCache], which calls
    it) leaves in each of the two maps exactly the entries that were there
    and whose age [now - timestamp] does not exceed the TTL: every expired
    entry is gone, every other entry is still bound to the same value, and
    nothing else changes. *)
Theorem cleanup_removes_exactly_expired (now : Z) (st : Caches) :
  let kept :=
    {| signatureCache :=
         filter (λ ke, now - timestamp ke.2 ≤ GEMINI_SIGNATURE_CACHE_TTL_MS)
                (signatureCache st);
       thinkingSignatureCache :=
         filter (λ ke, now - timestamp ke.2 ≤ GEMINI_SIGNATURE_CACHE_TTL_MS)
                (thinkingSignatureCache st) |} in
  cleanupExpiredEntries now st = kept ∧ cleanupCache now st = kept.
Proof.
  cbv zeta. unfold cleanupCache, cleanupExpiredEntries.
  by rewrite !sweep_filter.
Qed.

(** The same, entry by entry. *)
Lemma cleanup_no_expired_left now st k e :
  signatureCache (cleanupCache now st) !! k = Some e →
  now - sig_timestamp e ≤ GEMINI_SIGNATURE_CACHE_TTL_MS
  ∧ signatureCache st !! k = Some e.
Proof.
  unfold cleanupCache, cleanupExpiredEntries; cbn.
  rewrite sweep_filter. intros [? ?]%map_lookup_filter_Some. done.
Qed.

Lemma cleanup_keeps_fresh now st k e :
  signatureCache st !! k = Some e →
  now - sig_timestamp e ≤ GEMINI_SIGNATURE_CACHE_TTL_MS →
  signatureCache (cleanupCache now st) !! k = Some e.
Proof.
  intros Hk He. unfold cleanupCache, cleanupExpiredEntries; cbn.
  rewrite sweep_filter. by apply map_lookup_filter_Some.
Qed.

(** ** Store and read back *)

Lemma eqb_empty_false (s : string) : s ≠ "" → String.eqb s "" = false.
Proof. intros. by apply String.eqb_neq. Qed.

Lemma cacheSignature_lookup now id sig st :
  id ≠ "" → sig ≠ "" →
  signatureCache (cacheSignature now id sig st) !! id
  = Some {| signature := sig; sig_timestamp := now |}.
Proof.
  intros Hid Hsig. unfold cacheSignature.
  rewrite !eqb_empty_false by done. cbn. apply lookup_insert_eq.
Qed.

(** C4. After [cacheSignature(id, signature)] at time [stored] with a
    non-empty id and a non-empty signature, [getCachedSignature(id)] at time
    [read] returns the stored signature as long as [read - stored] does not
    exceed the TTL (in particular before the TTL has elapsed), and returns
    [null] once [read - stored] is strictly greater than the TTL. *)
Theorem cacheSignature_roundtrip
    (st : Caches) (id sig : string) (stored read : Z) :
  id ≠ "" → sig ≠ "" →
  (read - stored ≤ GEMINI_SIGNATURE_CACHE_TTL_MS →
     (getCachedSignature read id (cacheSignature stored id sig st)).1 = Some sig)
  ∧ (GEMINI_SIGNATURE_CACHE_TTL_MS < read - stored →
     (getCachedSignature read id (cacheSignature stored id sig st)).1 = None).
Proof.
  intros Hid Hsig. unfold getCachedSignature.
  rewrite eqb_empty_false, cacheSignature_lookup by done.
  split; intros Hage.
  - assert (expired read {| signature := sig; sig_timestamp := stored |} = false)
      as -> by by apply expired_false.
    done.
  - assert (expired read {| signature := sig; sig_timestamp := stored |} = true)
      as -> by by apply expired_true.
    done.
Qed.

(** A sweep that runs between the store and the read, while the entry is
    within its TTL, does not disturb the round trip. *)
Lemma cacheSignature_roundtrip_across_sweep st id sig stored swept read :
  id ≠ "" → sig ≠ "" →
  swept - stored ≤ GEMINI_SIGNATURE_CACHE_TTL_MS →
  read - stored ≤ GEMINI_SIGNATURE_CACHE_TTL_MS →
  (getCachedSignature read id
     (cleanupCache swept (cacheSignature stored id sig st))).1 = Some sig.
Proof.
  intros Hid Hsig Hswept Hread. unfold getCachedSignature.
  rewrite eqb_empty_false by done.
  rewrite (cleanup_keeps_fresh swept _ id
             {| signature := sig; sig_timestamp := stored |});
    [| by apply cacheSignature_lookup | done].
  assert (expired read {| signature := sig; sig_timestamp := stored |} = false)
    as -> by by apply expired_false.
  done.
Qed.

(** ** Short signatures *)

(** Every key of the thinking-signature map is non-empty and at least
    [MIN_SIGNATURE_LENGTH] long. *)
Definition long_keys (st : Caches) : Prop :=
  ∀ k e, thinkingSignatureCache st !! k = Some e →
         k ≠ "" ∧ MIN_SIGNATURE_LENGTH ≤ Z.of_nat (String.length k).

Lemma initial_long_keys : long_keys initial.
Proof. intros k e. cbn. by rewrite lookup_empty. Qed.

Lemma exec_long_keys st c : long_keys st → long_keys (exec st c).
Proof.
  intros Inv. destruct c as [now []]; unfold exec; cbn [fst snd].
  - unfold cacheSignature. by destruct (_ || _).
  - unfold getCachedSignature. destruct (String.eqb _ _); [done|].
    destruct (signatureCache st !! _); [|done]. by destruct (expired _ _).
  - unfold cacheThinkingSignature.
    destruct (String.eqb sig "") eqn:E1; [done|].
    destruct (_ <? _) eqn:E2; [done|]. cbn [orb].
    intros k e. cbn. intros Hk.
    destruct (decide (sig = k)) as [<-|Hne].
    + split; [by apply String.eqb_neq | by apply Z.ltb_ge].
    + rewrite lookup_insert_ne in Hk by done. by apply (Inv k e).
  - unfold getCachedSignatureFamily. destruct (String.eqb _ _); [done|].
    destruct (thinkingSignatureCache st !! sig); [|done].
    destruct (expired _ _); [|done].
    intros k e. cbn. intros Hk.
    apply lookup_delete_Some in Hk as [_ Hk]. by apply (Inv k e).
  - intros k e. cbn. by rewrite lookup_empty.
  - intros k e. unfold cleanupCache, cleanupExpiredEntries. cbn.
    rewrite sweep_filter. intros [Hk _]%map_lookup_filter_Some.
    by apply (Inv k e).
Qed.

Lemma run_long_keys history : long_keys (run history).
Proof.
  unfold run. generalize initial_long_keys. generalize initial.
  induction history as [|c h IH]; intros st Inv; [done|].
  cbn [foldl]. by apply IH, exec_long_keys.
Qed.

(** C7. In every state the module can be in (the state after any history of
    calls and timer sweeps since load), [cacheThinkingSignature] called with
    a signature that is empty or shorter than [MIN_SIGNATURE_LENGTH] leaves
    the state as it is, and [getCachedSignatureFamily] of that signature
    then returns [null]. *)
Theorem short_signature_is_not_cached
    (history : list (Z * call)) (sig family : string) (now later : Z) :
  sig = "" ∨ Z.of_nat (String.length sig) < MIN_SIGNATURE_LENGTH →
  let st := run history in
  cacheThinkingSignature now sig family st = st
  ∧ (getCachedSignatureFamily later sig
       (cacheThinkingSignature now sig family st)).1 = None.
Proof.
  intros Hshort st.
  assert (cacheThinkingSignature now sig family st = st) as Hnoop.
  { unfold cacheThinkingSignature. destruct Hshort as [-> | Hlt]; [done|].
    apply Z.ltb_lt in Hlt. rewrite Hlt. by rewrite orb_true_r. }
  split; [done|]. rewrite Hnoop. unfold getCachedSignatureFamily.
  destruct (String.eqb sig "") eqn:Hempty; [done|].
  destruct (thinkingSignatureCache st !! sig) as [e|] eqn:Hk; [|done].
  apply run_long_keys in Hk as [Hne Hlen].
  destruct Hshort as [-> | Hlt]; [done | lia].
Qed.

End Cache.

(** Instances: a two-hour TTL and a minimum length of 50, the values the
    proxy ships with. *)
Lemma cacheSignature_roundtrip_witness :
  (1500 - 1000 ≤ 7200000 →
     (getCachedSignature 7200000 1500 "toolu_01"
        (cacheSignature 1000 "toolu_01" "c2lnbmF0dXJl" initial)).1
     = Some "c2lnbmF0dXJl")
  ∧ (7200000 < 1500 - 1000 →
     (getCachedSignature 7200000 1500 "toolu_01"
        (cacheSignature 1000 "toolu_01" "c2lnbmF0dXJl" initial)).1 = None).
Proof.
  apply (cacheSignature_roundtrip 7200000 initial "toolu_01" "c2lnbmF0dXJl"
           1000 1500); discriminate.
Defined.

Lemma short_signature_is_not_cached_witness :
  let st := run 7200000 50
              [(10, CacheThinkingSignature
                      "0123456789012345678901234567890123456789012345678901234"
                      "gemini");
               (20, CacheSignature "toolu_01" "c2lnbmF0dXJl")] in
  cacheThinkingSignature 50 30 "short" "claude" st = st
  ∧ (getCachedSignatureFamily 7200000 40 "short"
       (cacheThinkingSignature 50 30 "short" "claude" st)).1 = None.
Proof.
  apply (short_signature_is_not_cached 7200000 50). right. reflexivity.
Defined.

Example expiry_at_the_boundary :
  (getCachedSignature 100 200 "id" (cacheSignature 100 "id" "s" initial)).1
    = Some "s"
  ∧ (getCachedSignature 100 201 "id" (cacheSignature 100 "id" "s" initial)).1
    = None.
Proof. split; reflexivity. Qed.

End SignatureCache.

(* ===================================================================== *)
(** * src/auth/database.js                                                *)
(* ===================================================================== *)

Module Database.
Import JS.

(** A thrown value: the [code] property when it has one, the [message], and
    whether it is an [instanceof NativeModuleError]. *)
Record JsError : Type :=
  { err_code : option string; err_message : string; err_native : bool }.

(** [new Error(message)]. *)
Definition Error (message : string) : JsError :=
  {| err_code := None; err_message := message; err_native := false |}.

(** How a call ends: with a value, or with a thrown error. *)
Inductive completion (A : Type) : Type :=
  | Return (a : A)
  | Throw (e : JsError).
Arguments Return {A} a.
Arguments Throw {A} e.

(** A cached connection object: its [open] property and whether
    [_cachedAuthStmt] has been set on it. *)
Record Connection : Type :=
  { open : bool; _cachedAuthStmt : bool }.

(** The module-level variables [Database], [moduleLoadError] and
    [dbCache].  [Database] is the loaded constructor; only whether it is set
    matters ([loadDatabaseModule] replacing itself by [() => Database] is
    the same test). *)
Record Module : Type :=
  { Database : bool;
    moduleLoadError : option JsError;
    dbCache : gmap string Connection }.

Definition set_Database (b : bool) (s : Module) : Module :=
  {| Database := b; moduleLoadError := moduleLoadError s; dbCache := dbCache s |}.
Definition set_moduleLoadError (e : JsError) (s : Module) : Module :=
  {| Database := Database s; moduleLoadError := Some e; dbCache := dbCache s |}.
Definition set_dbCache (c : gmap string Connection) (s : Module) : Module :=
  {| Database := Database s; moduleLoadError := moduleLoadError s; dbCache := c |}.

(** A row of [ItemTable]: its [value] column, declared TEXT: a string, or
    [None] for NULL. *)
Record Row : Type := { value : option string }.

(** What lies outside the module: the native driver, the file system, the
    helpers of native-module-helper.js and the JSON parser, each given by
    the outcome of the call the source makes. *)
Record World : Type :=
  { (** [require('better-sqlite3')] *)
    require_better_sqlite3 : completion unit;
    isModuleVersionError : JsError → bool;
    attemptAutoRebuild : JsError → bool;
    (** [require.resolve], [clearRequireCache] and the second [require] *)
    reload_better_sqlite3 : completion unit;
    (** [new Db(dbPath, { readonly: true, fileMustExist: true })] *)
    new_Db : string → completion unit;
    (** [db.prepare(...)] on the connection to [dbPath] *)
    prepare : string → completion unit;
    (** [stmt.get()] on the connection to [dbPath] *)
    stmt_get : string → completion (option Row);
    JSON_parse : string → completion jsval;
    (** the [code] property a [NativeModuleError] carries, if any
        (errors.js) *)
    native_code : option string }.

(** Computations over the module state that may throw. *)
Definition M (A : Type) : Type := Module → completion A * Module.

#[export] Instance M_ret : MRet M := λ A a s, (Return a, s).
#[export] Instance M_bind : MBind M := λ A B f m s,
  match m s with
  | (Return a, s') => f a s'
  | (Throw e, s') => (Throw e, s')
  end.

Definition throw {A} (e : JsError) : M A := λ s, (Throw e, s).
Definition lift {A} (c : completion A) : M A := λ s, (c, s).
Definition read : M Module := λ s, (Return s, s).
Definition modify (f : Module → Module) : M unit := λ s, (Return tt, f s).

(** [try { body } catch (error) { handler }]. *)
Definition try_catch {A} (body : M A) (handler : JsError → M A) : M A := λ s,
  match body s with
  | (Return a, s') => (Return a, s')
  | (Throw e, s') => handler e s'
  end.

Definition nl : string := String (ascii_of_nat 10) EmptyString.

Section WithWorld.
Variable w : World.

(** [new NativeModuleError(message, rebuildSucceeded, restartRequired)]. *)
Definition NativeModuleError (message : string)
    (rebuildSucceeded restartRequired : bool) : JsError :=
  {| err_code := native_code w; err_message := message; err_native := true |}.

Definition loadDatabaseModule : M unit :=
  s ← read;
  if Database s then mret tt
  else
    match moduleLoadError s with
    | Some e => throw e
    | None =>
        try_catch
          (_ ← lift (require_better_sqlite3 w); modify (set_Database true))
          (λ error,
             if isModuleVersionError w error then
               if attemptAutoRebuild w error then
                 try_catch
                   (_ ← lift (reload_better_sqlite3 w);
                    modify (set_Database true))
                   (λ retryError,
                      let e := NativeModuleError
                        "Native module rebuild completed. Please restart the server to apply the fix."
                        true true in
                      _ ← modify (set_moduleLoadError e); throw e)
               else
                 let e := NativeModuleError
                   ("Failed to auto-rebuild native module. Please run manually:" ++ nl
                    ++ "  npm rebuild better-sqlite3" ++ nl
                    ++ "Or if using npx, find the package location in the error and run:" ++ nl
                    ++ "  cd /path/to/better-sqlite3 && npm rebuild")
                   false false in
                 _ ← modify (set_moduleLoadError e); throw e
             else throw error)
    end.

(** [getDatabaseConnection(dbPath)].  The connection it returns is always
    the object stored in [dbCache] under [dbPath], so the model returns that
    key and later reads and writes go through the cache. *)
Definition getDatabaseConnection (dbPath : string) : M string :=
  _ ← loadDatabaseModule;
  s ← read;
  let fresh : M string :=
    _ ← lift (new_Db w dbPath);
    _ ← modify (λ s, set_dbCache
                  (<[dbPath := {| open := true; _cachedAuthStmt := false |}]>
                     (dbCache s)) s);
    mret dbPath in
  match dbCache s !! dbPath with
  | Some cachedDb =>
      if open cachedDb then mret dbPath
      else _ ← modify (λ s, set_dbCache (delete dbPath (dbCache s)) s); fresh
  | None => fresh
  end.

(** [authData.apiKey]: a [TypeError] on [null] and [undefined], the own
    property on an object, [undefined] on the other values (no prototype
    has a member of that name). *)
Definition read_property (v : jsval) (k : string) : completion jsval :=
  match v with
  | JNull =>
      Throw (Error ("Cannot read properties of null (reading '" ++ k ++ "')"))
  | JUndefined =>
      Throw (Error ("Cannot read properties of undefined (reading '" ++ k ++ "')"))
  | JObj o => Return (get o k)
  | _ => Return JUndefined
  end.

(** The [try] block of [getAuthStatus]. *)
Definition getAuthStatus_try (dbPath : string) : M jsval :=
  db ← getDatabaseConnection dbPath;
  s ← read;
  _ ← (match dbCache s !! db with
       | Some conn =>
           if _cachedAuthStmt conn then mret tt
           else
             _ ← lift (prepare w db);
             modify (λ s, set_dbCache
                       (<[db := {| open := open conn;
                                   _cachedAuthStmt := true |}]> (dbCache s)) s)
       | None => mret tt
       end);
  row ← lift (stmt_get w db);
  match row with
  | Some {| value := Some text |} =>
      if String.eqb text "" then
        throw (Error "No auth status found in database")
      else
        authData ← lift (JSON_parse w text);
        apiKey ← lift (read_property authData "apiKey");
        if truthy apiKey then mret authData
        else throw (Error "Auth data missing apiKey field")
  | _ => throw (Error "No auth status found in database")
  end.

(** Its [catch (error)] block. *)
Definition getAuthStatus_catch (dbPath : string) (error : JsError) : M jsval :=
  if bool_decide (err_code error = Some "SQLITE_CANTOPEN") then
    throw (Error ("Database not found at " ++ dbPath ++ ". "
                  ++ "Make sure Antigravity is installed and you are logged in."))
  else if includes "No auth status" (err_message error)
          || includes "missing apiKey" (err_message error) then
    throw error
  else if err_native error then throw error
  else throw (Error ("Failed to read Antigravity database: "
                     ++ err_message error)).

Definition getAuthStatus (dbPath : string) : M jsval :=
  try_catch (getAuthStatus_try dbPath) (getAuthStatus_catch dbPath).

Definition isDatabaseAccessible (dbPath : string) : M bool :=
  try_catch (_ ← getDatabaseConnection dbPath; mret true)
            (λ _, mret false).

(** [closeAllConnections()]: every cached connection is closed (an error
    while closing is logged and swallowed) and the cache is cleared. *)
Definition closeAllConnections : M unit :=
  modify (set_dbCache ∅).

End WithWorld.

(** ** Reasoning about computations *)

Lemma bind_Return_inv {A B} (m : M A) (f : A → M B) s b s' :
  (m ≫= f) s = (Return b, s') →
  ∃ a s1, m s = (Return a, s1) ∧ f a s1 = (Return b, s').
Proof.
  unfold mbind, M_bind. destruct (m s) as [[a|e] s1]; [eauto | done].
Qed.

Lemma bind_Throw {A B} (m : M A) (f : A → M B) s e s' :
  m s = (Throw e, s') → (m ≫= f) s = (Throw e, s').
Proof. intros H. unfold mbind, M_bind. by rewrite H. Qed.

Lemma bind_Return {A B} (m : M A) (f : A → M B) s a s' :
  m s = (Return a, s') → (m ≫= f) s = f a s'.
Proof. intros H. unfold mbind, M_bind. by rewrite H. Qed.

Lemma try_catch_Return {A} (body : M A) handler s a s' :
  body s = (Return a, s') → try_catch body handler s = (Return a, s').
Proof. intros H. unfold try_catch. by rewrite H. Qed.

Lemma try_catch_Throw {A} (body : M A) handler s e s' :
  body s = (Throw e, s') → try_catch body handler s = handler e s'.
Proof. intros H. unfold try_catch. by rewrite H. Qed.

Section Contracts.
Variable w : World.

(** ** [getAuthStatus] *)

Lemma getAuthStatus_catch_throws dbPath error s :
  ∃ e, getAuthStatus_catch dbPath error s = (Throw e, s).
Proof.
  unfold getAuthStatus_catch, throw.
  repeat match goal with |- context [if ?b then _ else _] => destruct b end;
    eauto.
Qed.

Lemma getAuthStatus_try_returns dbPath s v s' :
  getAuthStatus_try w dbPath s = (Return v, s') →
  ∃ o, v = JObj o ∧ truthy (get o "apiKey") = true.
Proof.
  unfold getAuthStatus_try. intros H.
  apply bind_Return_inv in H as (db & s1 & _ & H).
  apply bind_Return_inv in H as (s2 & s3 & _ & H).
  apply bind_Return_inv in H as (_ & s4 & _ & H).
  apply bind_Return_inv in H as (row & s5 & _ & H).
  destruct row as [[[text|]]|]; try done.
  destruct (String.eqb text ""); [done|].
  apply bind_Return_inv in H as (authData & s6 & _ & H).
  apply bind_Return_inv in H as (apiKey & s7 & Hkey & H).
  destruct (truthy apiKey) eqn:Htruthy; [|done].
  injection H as <- <-.
  unfold lift, read_property in Hkey.
  destruct authData; try done; injection Hkey as <- _; try done.
  eauto.
Qed.

(** A value [getAuthStatus] returns is an object whose [apiKey] is truthy. *)
Lemma getAuthStatus_returns dbPath s v s' :
  getAuthStatus w dbPath s = (Return v, s') →
  ∃ o, v = JObj o ∧ truthy (get o "apiKey") = true.
Proof.
  unfold getAuthStatus, try_catch.
  destruct (getAuthStatus_try w dbPath s) as [[v0|e0] s0] eqn:Htry.
  - intros [= <- <-]. by eapply getAuthStatus_try_returns.
  - destruct (getAuthStatus_catch_throws dbPath e0 s0) as [e ->]. done.
Qed.

(** A failure of [getDatabaseConnection] reaches the [catch] block. *)
Lemma getAuthStatus_connection_failure dbPath s e s1 :
  getDatabaseConnection w dbPath s = (Throw e, s1) →
  getAuthStatus w dbPath s = getAuthStatus_catch dbPath e s1.
Proof.
  intros H. unfold getAuthStatus. apply try_catch_Throw.
  unfold getAuthStatus_try. by apply bind_Throw.
Qed.

Lemma not_found_message dbPath :
  includes "Database not found"
    ("Database not found at " ++ dbPath ++ ". "
     ++ "Make sure Antigravity is installed and you are logged in.") = true.
Proof. apply (includes_prefix "Database not found"). Qed.

(** ** [isDatabaseAccessible] *)

Lemma loadDatabaseModule_dbCache s :
  dbCache (loadDatabaseModule w s).2 = dbCache s.
Proof.
  unfold loadDatabaseModule, mbind, M_bind, read, try_catch, lift, modify, throw.
  destruct (Database s); [done|].
  destruct (moduleLoadError s); [done|].
  destruct (require_better_sqlite3 w); [done|].
  destruct (isModuleVersionError w e); [|done].
  destruct (attemptAutoRebuild w e); [|done].
  by destruct (reload_better_sqlite3 w).
Qed.

End Contracts.

(** ** Concrete worlds *)

Definition fresh_module : Module :=
  {| Database := false; moduleLoadError := None; dbCache := ∅ |}.

(** The world of the repository's database test: the driver loads, the one
    database that exists holds the auth record, every other path makes the
    driver fail with [SQLITE_CANTOPEN]. *)
Definition test_world : World :=
  {| require_better_sqlite3 := Return tt;
     isModuleVersionError := λ _, false;
     attemptAutoRebuild := λ _, false;
     reload_better_sqlite3 := Return tt;
     new_Db := λ dbPath,
       if String.eqb dbPath "./test-database.vscdb" then Return tt
       else Throw {| err_code := Some "SQLITE_CANTOPEN";
                     err_message := "unable to open database file";
                     err_native := false |};
     prepare := λ _, Return tt;
     stmt_get := λ _, Return (Some {| value := Some "<auth status>" |});
     JSON_parse := λ _,
       Return (JObj {["apiKey" := JStr "test-api-key";
                      "email" := JStr "test@example.com";
                      "name" := JStr "Test User"]});
     native_code := None |}.

(** A world in which the native module was built for another Node.js
    version and the rebuild fails. *)
Definition stale_module_world : World :=
  {| require_better_sqlite3 :=
       Throw {| err_code := Some "ERR_DLOPEN_FAILED";
                err_message := "The module was compiled against a different Node.js version";
                err_native := false |};
     isModuleVersionError := λ _, true;
     attemptAutoRebuild := λ _, false;
     reload_better_sqlite3 := Return tt;
     new_Db := λ _, Return tt;
     prepare := λ _, Return tt;
     stmt_get := λ _, Return None;
     JSON_parse := λ _, Return JNull;
     native_code := None |}.

Example test_world_valid_db :
  (isDatabaseAccessible test_world "./test-database.vscdb" fresh_module).1
    = Return true
  ∧ ∃ o, (getAuthStatus test_world "./test-database.vscdb" fresh_module).1
         = Return (JObj o)
         ∧ get o "apiKey" = JStr "test-api-key"
         ∧ get o "email" = JStr "test@example.com".
Proof. split; [reflexivity|]. eexists. repeat split; reflexivity. Qed.

Example test_world_missing_db :
  (isDatabaseAccessible test_world "./non-existent.db" fresh_module).1
    = Return false
  ∧ (getAuthStatus test_world "./non-existent.db" fresh_module).1
    = Throw (Error "Database not found at ./non-existent.db. Make sure Antigravity is installed and you are logged in.").
Proof. split; reflexivity. Qed.

End Database.

(* ===================================================================== *)
(** * The account pool                                                    *)
(* ===================================================================== *)

Module AccountPool.
#[local] Open Scope Z_scope.

(** Modelled from the spec: the account manager module (the source of
    [selectAccount] and of the account records is not in the tree; the tests
    only mock it).  An account, with the attributes of section 3: its
    identifier, [rateLimitedUntil] (absent or a timestamp),
    [consecutiveFailures], the time it was last used (for the
    least-recently-used tie-break) and the mark set by [markInvalid]. *)
Record Account : Type :=
  { email : string;
    rateLimitedUntil : option Z;
    consecutiveFailures : nat;
    lastUsed : Z;
    invalid : bool }.

(** Modelled from the spec: the account manager's availability test.  An
    account's rate limit is in the future when [now < rateLimitedUntil]; an
    account is available when it is not marked invalid and its rate limit is
    absent or no longer in the future. *)
Definition rate_limited (now : Z) (a : Account) : bool :=
  match rateLimitedUntil a with
  | Some untilTs => now <? untilTs
  | None => false
  end.

Definition available (now : Z) (a : Account) : bool :=
  negb (invalid a) && negb (rate_limited now a).

(** Modelled from the spec: [getAvailableAccounts()], the accounts currently
    selectable, in pool order. *)
Definition getAvailableAccounts (now : Z) (pool : list Account) : list Account :=
  List.filter (available now) pool.

(** Modelled from the spec: the remaining rate-limit duration of one
    account, never negative. *)
Definition remaining (now : Z) (a : Account) : Z :=
  match rateLimitedUntil a with
  | Some untilTs => Z.max 0 (untilTs - now)
  | None => 0
  end.

(** Modelled from the spec: the minimum remaining rate-limit duration across
    all accounts (0 for a pool without accounts). *)
Definition minWait (now : Z) (pool : list Account) : Z :=
  match pool with
  | [] => 0
  | a :: rest => fold_left (λ m b, Z.min m (remaining now b)) rest (remaining now a)
  end.

(** Modelled from the spec: the selection policy, fewest
    [consecutiveFailures] first, ties broken by least recently used. *)
Definition preferred (a b : Account) : bool :=
  (consecutiveFailures a <? consecutiveFailures b)%nat
  || ((consecutiveFailures a =? consecutiveFailures b)%nat
      && (lastUsed a <? lastUsed b)).

Definition better (best candidate : Account) : Account :=
  if preferred candidate best then candidate else best.

(** Modelled from the spec: [selectAccount()], returning [{account, waitMs}]
    ([None] is [account: null]). *)
Definition selectAccount (now : Z) (pool : list Account)
  : option Account * Z :=
  match getAvailableAccounts now pool with
  | [] => (None, minWait now pool)
  | a :: rest => (Some (fold_left better rest a), 0)
  end.

(** Modelled from the spec: the outcome notifications of section 4.1,
    applied to the account with the given identifier. *)
Definition update (id : string) (f : Account → Account) (pool : list Account)
  : list Account :=
  map (λ a, if String.eqb (email a) id then f a else a) pool.

Definition notifySuccess (now : Z) (id : string) : list Account → list Account :=
  update id (λ a, {| email := email a; rateLimitedUntil := rateLimitedUntil a;
                     consecutiveFailures := 0; lastUsed := now;
                     invalid := invalid a |}).

Definition notifyFailure (now : Z) (id : string) : list Account → list Account :=
  update id (λ a, {| email := email a; rateLimitedUntil := rateLimitedUntil a;
                     consecutiveFailures := S (consecutiveFailures a);
                     lastUsed := now; invalid := invalid a |}).

(** The rate limit is set to the later of the existing and the new value
    (section 5). *)
Definition notifyRateLimit (now : Z) (id : string) (untilTs : Z)
  : list Account → list Account :=
  update id (λ a, {| email := email a;
                     rateLimitedUntil :=
                       Some (match rateLimitedUntil a with
                             | Some old => Z.max old untilTs
                             | None => untilTs
                             end);
                     consecutiveFailures := consecutiveFailures a;
                     lastUsed := now; invalid := invalid a |}).

Definition markInvalid (id : string) : list Account → list Account :=
  update id (λ a, {| email := email a; rateLimitedUntil := rateLimitedUntil a;
                     consecutiveFailures := consecutiveFailures a;
                     lastUsed := lastUsed a; invalid := true |}).

(** Modelled from the spec: [clearExpiredLimits()], which resets the rate
    limits that have passed. *)
Definition clearExpiredLimits (now : Z) (pool : list Account) : list Account :=
  map (λ a, if rate_limited now a then a
            else {| email := email a; rateLimitedUntil := None;
                    consecutiveFailures := consecutiveFailures a;
                    lastUsed := lastUsed a; invalid := invalid a |}) pool.

(** ** Selection *)

Lemma filter_none {A} (f : A → bool) (l : list A) :
  (∀ a, In a l → f a = false) → List.filter f l = [].
Proof.
  induction l as [|x l IH]; intros H; [done|]. cbn.
  rewrite (H x) by (by left). apply IH. intros a Ha. apply H. by right.
Qed.

Lemma better_cases best c : better best c = best ∨ better best c = c.
Proof. unfold better. destruct (preferred c best); auto. Qed.

Lemma fold_better_in rest a :
  fold_left better rest a = a ∨ In (fold_left better rest a) rest.
Proof.
  revert a. induction rest as [|c rest IH]; intros a; [by left|].
  cbn [fold_left]. destruct (IH (better a c)) as [H|H].
  - rewrite H. destruct (better_cases a c) as [-> | ->]; [by left|].
    right. by left.
  - right. by right.
Qed.

Lemma remaining_nonneg now a : 0 ≤ remaining now a.
Proof. unfold remaining. destruct (rateLimitedUntil a); lia. Qed.

Lemma fold_min_spec now rest m0 :
  let m := fold_left (λ m b, Z.min m (remaining now b)) rest m0 in
  m ≤ m0 ∧ (∀ b, In b rest → m ≤ remaining now b)
  ∧ (m = m0 ∨ ∃ b, In b rest ∧ m = remaining now b).
Proof.
  cbv zeta. revert m0. induction rest as [|c rest IH]; intros m0; cbn [fold_left].
  - split; [lia|]. split; [by intros ? []|by left].
  - destruct (IH (Z.min m0 (remaining now c))) as (Hle & Hall & Hex).
    split; [lia|]. split.
    + intros b [<-|Hb]; [lia | by apply Hall].
    + destruct Hex as [Hm | (b & Hb & Hm)].
      * destruct (Z.min_spec m0 (remaining now c)) as [[_ E]|[_ E]].
        -- left. congruence.
        -- right. exists c. split; [by left | congruence].
      * right. exists b. split; [by right | done].
Qed.

Lemma minWait_spec now pool :
  0 ≤ minWait now pool
  ∧ (∀ a, In a pool → minWait now pool ≤ remaining now a)
  ∧ (pool ≠ [] → ∃ a, In a pool ∧ minWait now pool = remaining now a).
Proof.
  destruct pool as [|a rest]; cbn [minWait].
  - split; [lia|]. split; [by intros ? []|done].
  - destruct (fold_min_spec now rest (remaining now a)) as (Hle & Hall & Hex).
    cbv zeta in *. split; [|split].
    + destruct Hex as [-> | (b & _ & ->)]; apply remaining_nonneg.
    + intros b [<-|Hb]; [done | by apply Hall].
    + intros _. destruct Hex as [Hm | (b & Hb & Hm)].
      * exists a. split; [by left | done].
      * exists b. split; [by right | done].
Qed.

Lemma available_not_limited now a :
  available now a = true →
  invalid a = false ∧ ∀ untilTs, rateLimitedUntil a = Some untilTs → untilTs ≤ now.
Proof.
  unfold available, rate_limited. intros [Hi Hr]%andb_true_iff.
  apply negb_true_iff in Hi, Hr. split; [done|].
  intros t Ht. rewrite Ht in Hr. by apply Z.ltb_ge in Hr.
Qed.

(** C3. When every account's [rateLimitedUntil] is in the future,
    [selectAccount()] returns [{account: null, waitMs: m}] where [m] is the
    minimum over all accounts of the remaining rate-limit duration (a lower
    bound of every account's remaining duration, attained by one of them)
    and is not negative.  When some account is available, it returns an
    available account of the pool with [waitMs = 0], and that account's
    [rateLimitedUntil] is not in the future. *)
Theorem selectAccount_spec (now : Z) (pool : list Account) :
  ((∀ a, In a pool → ∃ untilTs, rateLimitedUntil a = Some untilTs ∧ now < untilTs) →
   ∃ m, selectAccount now pool = (None, m)
        ∧ 0 ≤ m
        ∧ (∀ a untilTs, In a pool → rateLimitedUntil a = Some untilTs →
                        m ≤ untilTs - now)
        ∧ (pool ≠ [] → ∃ a, In a pool ∧ rateLimitedUntil a = Some (now + m)))
  ∧ ((∃ a, In a pool ∧ available now a = true) →
     ∃ a, selectAccount now pool = (Some a, 0)
          ∧ In a pool ∧ available now a = true
          ∧ ∀ untilTs, rateLimitedUntil a = Some untilTs → untilTs ≤ now).
Proof.
  split.
  - intros Hall.
    assert (getAvailableAccounts now pool = []) as Hnone.
    { unfold getAvailableAccounts. apply filter_none.
      intros a Ha. destruct (Hall a Ha) as (t & Ht & Hlt).
      unfold available, rate_limited. rewrite Ht.
      apply Z.ltb_lt in Hlt. rewrite Hlt. apply andb_false_r. }
    exists (minWait now pool). unfold selectAccount. rewrite Hnone.
    destruct (minWait_spec now pool) as (Hpos & Hlow & Hatt).
    split; [done|]. split; [done|]. split.
    + intros a t Ha Ht. specialize (Hlow a Ha).
      destruct (Hall a Ha) as (t' & Ht' & Hlt).
      unfold remaining in Hlow. rewrite Ht in Hlow, Ht'.
      injection Ht' as <-. lia.
    + intros Hne. destruct (Hatt Hne) as (a & Ha & Hm).
      exists a. split; [done|].
      destruct (Hall a Ha) as (t & Ht & Hlt).
      unfold remaining in Hm. rewrite Ht in Hm. rewrite Ht. f_equal. lia.
  - intros (a0 & Ha0 & Hav0). unfold selectAccount.
    destruct (getAvailableAccounts now pool) as [|a rest] eqn:Hav.
    + exfalso. assert (In a0 (getAvailableAccounts now pool)) as Hin.
      { apply filter_In. by split. }
      by rewrite Hav in Hin.
    + exists (fold_left better rest a). split; [done|].
      assert (In (fold_left better rest a) (getAvailableAccounts now pool))
        as [Hin Hok]%filter_In.
      { rewrite Hav. destruct (fold_better_in rest a) as [-> | H];
          [by left | by right]. }
      split; [done|]. split; [done|].
      by apply available_not_limited.
Qed.

Definition alice : Account :=
  {| email := "alice@example.com"; rateLimitedUntil := Some 5000;
     consecutiveFailures := 0; lastUsed := 10; invalid := false |}.
Definition bob : Account :=
  {| email := "bob@example.com"; rateLimitedUntil := Some 3000;
     consecutiveFailures := 2; lastUsed := 20; invalid := false |}.
Definition carol : Account :=
  {| email := "carol@example.com"; rateLimitedUntil := None;
     consecutiveFailures := 1; lastUsed := 30; invalid := false |}.

Example selectAccount_all_limited :
  selectAccount 1000 [alice; bob] = (None, 2000).
Proof. reflexivity. Qed.

Example selectAccount_one_free :
  selectAccount 1000 [alice; bob; carol] = (Some carol, 0)
  ∧ selectAccount 4000 [alice; bob; carol] = (Some carol, 0)
  ∧ selectAccount 6000 [alice; bob; carol] = (Some alice, 0).
Proof. repeat split; reflexivity. Qed.

Lemma selectAccount_spec_witness :
  (∃ m, selectAccount 1000 [alice; bob] = (None, m)
        ∧ 0 ≤ m
        ∧ (∀ a untilTs, In a [alice; bob] → rateLimitedUntil a = Some untilTs →
                        m ≤ untilTs - 1000)
        ∧ ([alice; bob] ≠ [] →
           ∃ a, In a [alice; bob] ∧ rateLimitedUntil a = Some (1000 + m)))
  ∧ (∃ a, selectAccount 4000 [alice; bob] = (Some a, 0)
          ∧ In a [alice; bob] ∧ available 4000 a = true
          ∧ ∀ untilTs, rateLimitedUntil a = Some untilTs → untilTs ≤ 4000).
Proof.
  split.
  - apply (proj1 (selectAccount_spec 1000 [alice; bob])).
    intros a [<- | [<- | []]]; eexists; (split; [reflexivity | reflexivity]).
  - apply (proj2 (selectAccount_spec 4000 [alice; bob])).
    exists bob. split; [right; left; reflexivity | reflexivity].
Defined.

End AccountPool.

(* ===================================================================== *)
(** * The dispatcher                                                      *)
(* ===================================================================== *)

Module Dispatcher.
Import AccountPool.
#[local] Open Scope Z_scope.

(** Modelled from the spec: the error taxonomy of section 7 (the
    dispatcher's sources, streaming-handler.js and message-handler.js, are
    not in the tree; only their failover test is). *)
Inductive ErrorKind : Type :=
  | CapacityExhausted
  | RateLimited
  | InvalidCredential
  | TransportFailure
  | MalformedUpstreamFrame
  | PoolExhausted
  | RetriesExhausted.

(** Modelled from the spec: the normalized output units of section 3.  The
    content a frame decodes to is kept apart from the two terminal
    events. *)
Inductive Content : Type :=
  | TextDelta (text : string)
  | ToolCallStart (id name : string)
  | ToolCallArgs (fragment : string)
  | ToolCallEnd
  | UsageUpdate (input output : Z).

Inductive StreamEvent : Type :=
  | Payload (c : Content)
  | ErrorEvent (kind : ErrorKind)
  | DoneEvent.

(** Modelled from the spec: one chunk of an upstream body, as the stream
    translator sees it: a frame that decodes to content, a frame that does
    not parse, or a capacity-exhaustion signal arriving in the stream. *)
Inductive Chunk : Type :=
  | Frame (contents : list Content)
  | MalformedFrame
  | CapacitySignal.

(** Modelled from the spec: an upstream answer.  [reasons] lists the
    [details[].reason] codes of an error body, [accountRateLimited] is the
    account-scoped rate-limit signal, [resetAt] the reset time the provider
    supplies, [body] the chunks of the response body. *)
Record HttpResponse : Type :=
  { status : Z;
    reasons : list string;
    accountRateLimited : bool;
    resetAt : option Z;
    body : list Chunk }.

Inductive TransportResult : Type :=
  | Response (r : HttpResponse)
  | TransportError.

(** Modelled from the spec: step 4 of the attempt loop, the classification
    of an answer. *)
Inductive Classification : Type :=
  | Success2xx
  | CapacityExhausted503
  | AccountRateLimit
  | OtherFailure.

Definition classify (r : HttpResponse) : Classification :=
  if (200 <=? status r) && (status r <? 300) then Success2xx
  else if (status r =? 503)
          && existsb (String.eqb "MODEL_CAPACITY_EXHAUSTED") (reasons r)
  then CapacityExhausted503
  else if (status r =? 429) || accountRateLimited r then AccountRateLimit
  else OtherFailure.

(** Modelled from the spec: the stream translator driven by the dispatcher
    over one successful body.  Frames are decoded in arrival order, a
    malformed frame is skipped, [done] is signalled at the end of the
    stream; a capacity-exhaustion signal in the stream ends it with a
    terminal error event.  The boolean tells whether the stream reached its
    end. *)
Fixpoint forward (chunks : list Chunk) : list StreamEvent * bool :=
  match chunks with
  | [] => ([DoneEvent], true)
  | Frame contents :: rest =>
      let '(events, ok) := forward rest in
      ((map Payload contents ++ events)%list, ok)
  | MalformedFrame :: rest => forward rest
  | CapacitySignal :: _ => ([ErrorEvent CapacityExhausted], false)
  end.

(** Modelled from the spec: the configuration surface of section 6. *)
Record Config : Type :=
  { maxCapacityRetries : nat;
    capacityBackoffTiersMs : list Z;
    rateLimitDefaultMs : Z;
    failureThreshold : nat }.

(** [BackoffPlan[attempt]], clamped to the last tier. *)
Definition backoff (cfg : Config) (attempt : nat) : Z :=
  nth (Nat.min attempt (length (capacityBackoffTiersMs cfg) - 1))
      (capacityBackoffTiersMs cfg) 0.

(** What the dispatcher does that an observer can see: an upstream HTTP
    call, a wait, an event handed to the caller. *)
Inductive Action : Type :=
  | Call (endpoint : string)
  | Wait (ms : Z)
  | Emit (event : StreamEvent).

(** Modelled from the spec: the per-request record of section 3 together
    with the pool and the clock. *)
Record State : Type :=
  { pool : list Account;
    now : Z;
    endpointIndex : nat;
    capacityAttempts : nat;
    selectionWaits : nat;
    calls : nat }.

Inductive Phase : Type :=
  | SELECTING
  | CALLING (account : Account) (token project : string).

Inductive Outcome : Type :=
  | Succeeded
  | Failed (kind : ErrorKind).

Inductive Next : Type :=
  | Continue (st : State) (phase : Phase)
  | Stop (outcome : Outcome) (st : State).

Definition with_pool (p : list Account) (st : State) : State :=
  {| pool := p; now := now st; endpointIndex := endpointIndex st;
     capacityAttempts := capacityAttempts st;
     selectionWaits := selectionWaits st; calls := calls st |}.

Definition called (st : State) : State :=
  {| pool := pool st; now := now st; endpointIndex := endpointIndex st;
     capacityAttempts := capacityAttempts st;
     selectionWaits := selectionWaits st; calls := S (calls st) |}.

Section AttemptLoop.

Variable cfg : Config.
(** The endpoint fallback list. *)
Variable endpoints : list string.
(** The transport: the answer to the n-th upstream call, made to an endpoint
    with a token. *)
Variable transport : nat → string → string → TransportResult.
(** Token and project resolution for an account; [None] when it fails. *)
Variable credentials : string → option (string * string).

(** Modelled from the spec: one transition of the state machine of section
    4.2, [SELECTING → CALLING → {SUCCEEDED, FAILED_OVER → CALLING,
    RATE_LIMITED → SELECTING, EXHAUSTED, ERRORED}], with the actions it
    performs. *)
Definition step (st : State) (phase : Phase) : list Action * Next :=
  match phase with
  | SELECTING =>
      (* step 1: clear expired limits, select *)
      let pool1 := clearExpiredLimits (now st) (pool st) in
      match selectAccount (now st) pool1 with
      | (None, waitMs) =>
          if (selectionWaits st <? maxCapacityRetries cfg)%nat then
            ([Wait waitMs],
             Continue {| pool := pool1; now := now st + waitMs;
                         endpointIndex := endpointIndex st;
                         capacityAttempts := capacityAttempts st;
                         selectionWaits := S (selectionWaits st);
                         calls := calls st |} SELECTING)
          else ([], Stop (Failed PoolExhausted) (with_pool pool1 st))
      | (Some account, _) =>
          (* step 2: resolve token and project *)
          match credentials (email account) with
          | None =>
              ([], Continue (with_pool (markInvalid (email account) pool1) st)
                            SELECTING)
          | Some (token, project) =>
              ([], Continue (with_pool pool1 st) (CALLING account token project))
          end
      end
  | CALLING account token project =>
      (* step 3: call the current endpoint *)
      match nth_error endpoints (endpointIndex st) with
      | None => ([], Stop (Failed RetriesExhausted) st)
      | Some endpoint =>
          let st1 := called st in
          let failure :=
            let pool1 := notifyFailure (now st) (email account) (pool st) in
            if (S (consecutiveFailures account) <? failureThreshold cfg)%nat
            then ([Call endpoint], Continue (with_pool pool1 st1) SELECTING)
            else ([Call endpoint],
                  Stop (Failed TransportFailure) (with_pool pool1 st1)) in
          match transport (calls st) endpoint token with
          | TransportError => failure
          | Response r =>
              (* step 4: classify *)
              match classify r with
              | Success2xx =>
                  let '(events, ok) := forward (body r) in
                  if ok then
                    (Call endpoint :: map Emit events,
                     Stop Succeeded
                          (with_pool (notifySuccess (now st) (email account)
                                        (pool st)) st1))
                  else
                    (Call endpoint :: map Emit events,
                     Stop (Failed CapacityExhausted) st1)
              | CapacityExhausted503 =>
                  if (capacityAttempts st <? maxCapacityRetries cfg)%nat
                     && (S (endpointIndex st) <? length endpoints)%nat
                  then
                    let wait := backoff cfg (capacityAttempts st) in
                    ([Call endpoint; Wait wait],
                     Continue {| pool := pool st; now := now st + wait;
                                 endpointIndex := S (endpointIndex st);
                                 capacityAttempts := S (capacityAttempts st);
                                 selectionWaits := selectionWaits st;
                                 calls := S (calls st) |}
                              (CALLING account token project))
                  else ([Call endpoint], Stop (Failed RetriesExhausted) st1)
              | AccountRateLimit =>
                  let untilTs := default (now st + rateLimitDefaultMs cfg)
                                         (resetAt r) in
                  ([Call endpoint],
                   Continue (with_pool (notifyRateLimit (now st) (email account)
                                          untilTs (pool st)) st1)
                            SELECTING)
              | OtherFailure => failure
              end
          end
      end
  end.

(** Modelled from the spec: the attempt loop, the transitions taken until a
    terminal state.  [fuel] bounds the number of transitions; the outcome is
    [None] when it runs out. *)
Fixpoint run (fuel : nat) (st : State) (phase : Phase)
  : list Action * option Outcome :=
  match fuel with
  | O => ([], None)
  | S fuel' =>
      match step st phase with
      | (actions, Stop outcome _) => (actions, Some outcome)
      | (actions, Continue st' phase') =>
          let '(rest, outcome) := run fuel' st' phase' in
          ((actions ++ rest)%list, outcome)
      end
  end.

Definition start (accounts : list Account) (time : Z) : State :=
  {| pool := accounts; now := time; endpointIndex := 0;
     capacityAttempts := 0; selectionWaits := 0; calls := 0 |}.

Fixpoint calls_of (trace : list Action) : list string :=
  match trace with
  | [] => []
  | Call endpoint :: rest => endpoint :: calls_of rest
  | _ :: rest => calls_of rest
  end.

Fixpoint events_of (trace : list Action) : list StreamEvent :=
  match trace with
  | [] => []
  | Emit event :: rest => event :: events_of rest
  | _ :: rest => events_of rest
  end.



End AttemptLoop.

(** ** Traces *)

Definition is_emit (a : Action) : Prop :=
  match a with Emit _ => True | _ => False end.

Definition is_quiet (a : Action) : Prop :=
  match a with Emit _ => False | _ => True end.

(** From the first forwarded event on, the trace holds forwarded events
    only. *)
Fixpoint committed (trace : list Action) : Prop :=
  match trace with
  | [] => True
  | Emit _ :: rest => Forall is_emit rest
  | _ :: rest => committed rest
  end.

(** The content events of the frames of a body, in order. *)
Fixpoint decoded (chunks : list Chunk) : list StreamEvent :=
  match chunks with
  | [] => []
  | Frame contents :: rest => (map Payload contents ++ decoded rest)%list
  | _ :: rest => decoded rest
  end.



Lemma calls_of_emits events : calls_of (map Emit events) = [].
Proof. by induction events. Qed.

Lemma events_of_emits events : events_of (map Emit events) = events.
Proof. induction events as [|e l IH]; cbn; [done | by rewrite IH]. Qed.

Lemma emits_all_emit events : Forall is_emit (map Emit events).
Proof. induction events; constructor; done. Qed.


(** A signal in the stream ends it: what was decoded before it is followed
    by the terminal error, and nothing after the signal is read. *)
Lemma forward_signal before after :
  Forall (λ c, c ≠ CapacitySignal) before →
  forward (before ++ CapacitySignal :: after)%list
  = ((decoded before ++ [ErrorEvent CapacityExhausted])%list, false).
Proof.
  induction 1 as [|c before Hc _ IH]; [done|].
  destruct c as [contents| |]; cbn; [| done | done].
  rewrite IH. by rewrite app_assoc.
Qed.

Lemma committed_split trace pre event post :
  committed trace → trace = (pre ++ Emit event :: post)%list →
  Forall is_emit post.
Proof.
  revert pre. induction trace as [|a trace IH]; intros pre Hc Heq.
  - by destruct pre.
  - destruct pre as [|b pre]; cbn in Heq; injection Heq as -> ->.
    + exact Hc.
    + destruct b; cbn in Hc; try by eapply IH.
      apply Forall_app in Hc as [_ Hc]. by apply Forall_cons in Hc as [_ Hc].
Qed.

Lemma committed_quiet_app quiet rest :
  Forall is_quiet quiet → committed rest → committed (quiet ++ rest)%list.
Proof.
  induction 1 as [|a quiet Ha _ IH]; intros Hc; [done|].
  destruct a; cbn; try by apply IH. done.
Qed.

Lemma committed_call_emits endpoint events :
  committed (Call endpoint :: map Emit events).
Proof.
  cbn. destruct events as [|e events]; cbn; [done|]. apply emits_all_emit.
Qed.

Section Properties.

Variable cfg : Config.
Variable endpoints : list string.
Variable transport : nat → string → string → TransportResult.
Variable credentials : string → option (string * string).

#[local] Abbreviation step := (step cfg endpoints transport credentials).
#[local] Abbreviation run := (run cfg endpoints transport credentials).

(** A transition that goes on has forwarded nothing. *)
Lemma step_continue_quiet st phase actions st' phase' :
  step st phase = (actions, Continue st' phase') → Forall is_quiet actions.
Proof.
  unfold Dispatcher.step. intros H.
  repeat match type of H with
         | context [match ?x with _ => _ end] => destruct x eqn:?
         end;
    try discriminate; injection H as <- _; repeat constructor.
Qed.

(** A transition that stops has forwarded events last, if any. *)
Lemma step_stop_committed st phase actions outcome st' :
  step st phase = (actions, Stop outcome st') → committed actions.
Proof.
  unfold Dispatcher.step. intros H.
  repeat match type of H with
         | context [match ?x with _ => _ end] => destruct x eqn:?
         end;
    try discriminate; injection H as <- _; try done; apply committed_call_emits.
Qed.

Lemma run_committed fuel st phase : committed (run fuel st phase).1.
Proof.
  revert st phase. induction fuel as [|fuel IH]; intros st phase; [done|].
  cbn [Dispatcher.run]. destruct (step st phase) as [actions [st' phase'|outcome st']] eqn:Hstep.
  - specialize (IH st' phase'). destruct (run fuel st' phase') as [rest o].
    cbn [fst] in *. apply committed_quiet_app; [|done].
    by eapply step_continue_quiet.
  - cbn [fst]. by eapply step_stop_committed.
Qed.


Lemma classify_success r : 200 ≤ status r < 300 → classify r = Success2xx.
Proof.
  intros [Hlo Hhi]. unfold classify.
  apply Z.leb_le in Hlo. apply Z.ltb_lt in Hhi. by rewrite Hlo, Hhi.
Qed.


(** ** The transitions, one by one *)






(** A successful body with a capacity signal in it: the events decoded
    before the signal are forwarded, then the terminal error, and the loop
    stops there. *)
Lemma run_signal_in_stream fuel st account token project endpoint r before after :
  nth_error endpoints (endpointIndex st) = Some endpoint →
  transport (calls st) endpoint token = Response r →
  classify r = Success2xx →
  Forall (λ c, c ≠ CapacitySignal) before →
  body r = (before ++ CapacitySignal :: after)%list →
  run (S fuel) st (CALLING account token project)
  = (Call endpoint
       :: map Emit (decoded before ++ [ErrorEvent CapacityExhausted])%list,
     Some (Failed CapacityExhausted)).
Proof.
  intros He Ht Hc Hb Hbody. cbn [Dispatcher.run]. unfold Dispatcher.step.
  rewrite He, Ht, Hc, Hbody. by rewrite forward_signal.
Qed.

(** C2. In every run of the attempt loop, whatever follows a forwarded
    event in the trace is a forwarded event: no upstream call and no backoff
    wait comes after the first one, so a failover or a retry can only
    precede it.  And when a capacity-exhaustion signal arrives in the body
    of a successful response, the events decoded before it are followed by
    the terminal error event, the request ends as failed, and the only
    upstream call of that attempt is the one already made. *)
Theorem no_failover_after_first_event :
  (∀ fuel st phase pre event post,
     (run fuel st phase).1 = (pre ++ Emit event :: post)%list →
     Forall is_emit post)
  ∧ (∀ fuel st account token project endpoint r before after,
       nth_error endpoints (endpointIndex st) = Some endpoint →
       transport (calls st) endpoint token = Response r →
       200 ≤ status r < 300 →
       Forall (λ c, c ≠ CapacitySignal) before →
       body r = (before ++ CapacitySignal :: after)%list →
       let result := run (S fuel) st (CALLING account token project) in
       calls_of result.1 = [endpoint]
       ∧ events_of result.1
         = (decoded before ++ [ErrorEvent CapacityExhausted])%list
       ∧ result.2 = Some (Failed CapacityExhausted)).
Proof.
  split.
  - intros fuel st phase pre event post Heq.
    eapply committed_split; [apply run_committed | exact Heq].
  - intros fuel st account token project endpoint r before after
           He Ht Hs Hb Hbody result. subst result.
    rewrite (run_signal_in_stream fuel st account token project endpoint r
               before after) by (try apply classify_success; done).
    cbn [fst snd calls_of events_of].
    by rewrite calls_of_emits, events_of_emits.
Qed.

End Properties.

(** ** The scenario of the failover test *)

Definition daily : string := "https://daily-cloudcode-pa.example".
Definition prod : string := "https://cloudcode-pa.example".

Definition test_config : Config :=
  {| maxCapacityRetries := 3; capacityBackoffTiersMs := [10];
     rateLimitDefaultMs := 60000; failureThreshold := 3 |}.

Definition test_account : Account :=
  {| email := "test@example.com"; rateLimitedUntil := None;
     consecutiveFailures := 0; lastUsed := 0; invalid := false |}.

Definition capacity_error : HttpResponse :=
  {| status := 503; reasons := ["MODEL_CAPACITY_EXHAUSTED"];
     accountRateLimited := false; resetAt := None;
     body := [Frame [TextDelta "No capacity available for model"]] |}.

Definition stream_success : HttpResponse :=
  {| status := 200; reasons := []; accountRateLimited := false;
     resetAt := None; body := [Frame [TextDelta "Stream success"]] |}.

(** A 2xx answer whose stream is cut by a capacity signal after one
    frame. *)
Definition interrupted_stream : HttpResponse :=
  {| status := 200; reasons := []; accountRateLimited := false;
     resetAt := None;
     body := [Frame [TextDelta "partial"]; CapacitySignal;
              Frame [TextDelta "never read"]] |}.

Definition mock_fetch (n : nat) (url token : string) : TransportResult :=
  if String.eqb url daily then Response capacity_error
  else if String.eqb url prod then Response stream_success
  else TransportError.

Definition mock_credentials (_ : string) : option (string * string) :=
  Some ("mock-token", "mock-project").

Example failover_test_trace :
  run test_config [daily; prod] mock_fetch mock_credentials 10
      (start [test_account] 0) SELECTING
  = ([Call daily; Wait 10; Call prod;
      Emit (Payload (TextDelta "Stream success")); Emit DoneEvent],
     Some Succeeded).
Proof. reflexivity. Qed.

Example no_retry_budget_trace :
  run {| maxCapacityRetries := 0; capacityBackoffTiersMs := [10];
         rateLimitDefaultMs := 60000; failureThreshold := 3 |}
      [daily; prod] mock_fetch mock_credentials 10
      (start [test_account] 0) SELECTING
  = ([Call daily], Some (Failed RetriesExhausted)).
Proof. reflexivity. Qed.

Lemma no_failover_after_first_event_witness :
  let result :=
    run test_config [daily; prod] (λ _ _ _, Response interrupted_stream)
        mock_credentials 1 (start [test_account] 0)
        (CALLING test_account "mock-token" "mock-project") in
  calls_of result.1 = [daily]
  ∧ events_of result.1
    = (decoded [Frame [TextDelta "partial"]]
       ++ [ErrorEvent CapacityExhausted])%list
  ∧ result.2 = Some (Failed CapacityExhausted).
Proof.
  apply (proj2 (no_failover_after_first_event test_config [daily; prod]
                  (λ _ _ _, Response interrupted_stream) mock_credentials)
           0%nat (start [test_account] 0) test_account
           "mock-token" "mock-project" daily interrupted_stream
           [Frame [TextDelta "partial"]] [Frame [TextDelta "never read"]]).
  - reflexivity.
  - reflexivity.
  - cbn. lia.
  - repeat constructor. discriminate.
  - reflexivity.
Defined.

End Dispatcher.

(* ===================================================================== *)
(** * More on the argument remapping                                      *)
(* ===================================================================== *)

Module MappersMore.
Import JS Mappers MappersSpec.

(** The property names [remapFunctionCallArgs] reads or writes for
    [grep]; for [glob] only the first three. *)
Definition grep_keys : list string :=
  ["description"; "query"; "pattern"; "includes"; "include"; "ignore_case";
   "ignoreCase"; "-n"; "lineNumbers"; "caseSensitive"; "regex"; "wholeWord"].

Definition glob_keys : list string := ["description"; "query"; "pattern"].

(** What one turn of the loop over [boolParams] makes of a value. *)
Definition coerced (v : jsval) : jsval :=
  match v with
  | JStr s => match coerceToBool (JStr s) with
              | Some b => JBool b
              | None => JStr s
              end
  | _ => v
  end.

(** The value the two pattern blocks leave under [pattern] when it was
    undefined: [description] if it has a value, [query] otherwise. *)
Definition pattern_source (o : gmap string jsval) : jsval :=
  if is_undefined (get o "description") then get o "query"
  else get o "description".

Lemma get_lookup_eq (o o' : gmap string jsval) k :
  o' !! k = o !! k → get o' k = get o k.
Proof. unfold get. by intros ->. Qed.

Lemma move_property_to from to o :
  from ≠ to →
  get (move_property from to o) to =
    if is_undefined (get o from) then get o to
    else if is_undefined (get o to) then get o from else get o to.
Proof.
  intros Hne. unfold move_property.
  destruct (is_undefined (get o from)); [done|].
  rewrite get_delete_ne by done.
  destruct (is_undefined (get o to)).
  - apply get_insert_eq.
  - by apply get_delete_ne.
Qed.

Lemma move_property_get_other from to o k :
  k ≠ from → k ≠ to → get (move_property from to o) k = get o k.
Proof. intros. apply get_lookup_eq. by apply move_property_other. Qed.

Lemma remap_glob_other o k : k ∉ glob_keys → remap_glob o !! k = o !! k.
Proof.
  intros Hk. unfold glob_keys in Hk. unfold remap_glob.
  rewrite !not_elem_of_cons in Hk. destruct Hk as (? & ? & ? & _).
  by rewrite !move_property_other.
Qed.

Lemma remap_grep_tail_other o k :
  k ≠ "includes" → k ≠ "include" → k ≠ "ignore_case" → k ≠ "ignoreCase" →
  k ≠ "-n" → k ≠ "lineNumbers" → k ∉ boolParams →
  foldl coerce_param
    (remap_dash_n (move_property "ignore_case" "ignoreCase" (remap_includes o)))
    boolParams !! k = o !! k.
Proof.
  intros. rewrite coerce_loop_other by done.
  by rewrite remap_dash_n_other, move_property_other, remap_includes_other.
Qed.

Lemma remap_grep_other o k : k ∉ grep_keys → remap_grep o !! k = o !! k.
Proof.
  intros Hk. unfold grep_keys in Hk. unfold remap_grep.
  rewrite !not_elem_of_cons in Hk.
  destruct Hk as (? & ? & ? & ? & ? & ? & ? & ? & ? & ? & ? & ? & _).
  rewrite remap_grep_tail_other; try done.
  - by rewrite !move_property_other.
  - unfold boolParams. rewrite !not_elem_of_cons. repeat split; try done.
    apply not_elem_of_nil.
Qed.

Lemma remap_glob_pattern o :
  get o "pattern" = JUndefined → get (remap_glob o) "pattern" = pattern_source o.
Proof.
  intros Hp. unfold remap_glob, pattern_source.
  rewrite move_property_to by done.
  rewrite (move_property_get_other "description" "pattern" o "query") by done.
  rewrite (move_property_to "description" "pattern") by done. rewrite Hp. cbn.
  destruct (is_undefined (get o "description")) eqn:Hd; cbn.
  - by destruct (is_undefined (get o "query")) eqn:Hq;
      [apply is_undefined_true in Hq|].
  - rewrite Hd. by destruct (is_undefined (get o "query")).
Qed.

Lemma coerced_idempotent v : coerced (coerced v) = coerced v.
Proof.
  destruct v; try done. cbn [coerced].
  destruct (coerceToBool (JStr s)) eqn:E; [done|]. cbn [coerced]. by rewrite E.
Qed.

Lemma coerce_param_same o p : get (coerce_param o p) p = coerced (get o p).
Proof.
  unfold coerce_param, coerced. destruct (get o p) eqn:E; rewrite ?E; try done.
  destruct (coerceToBool (JStr s)); [apply get_insert_eq | by rewrite E].
Qed.

Lemma coerce_loop_same l o p :
  p ∈ l → get (foldl coerce_param o l) p = coerced (get o p).
Proof.
  revert o. induction l as [|q l IH]; intros o Hp.
  - by apply elem_of_nil in Hp.
  - cbn [foldl]. destruct (decide (p ∈ l)) as [Hin|Hnot].
    + rewrite IH by done. destruct (decide (p = q)) as [->|Hne].
      * by rewrite coerce_param_same, coerced_idempotent.
      * by rewrite (get_lookup_eq _ _ p (coerce_param_other o q p Hne)).
    + apply elem_of_cons in Hp as [->|Hp]; [|done].
      rewrite (get_lookup_eq _ _ q (coerce_loop_other l _ q Hnot)).
      apply coerce_param_same.
Qed.

Lemma remap_object_grep toolName o :
  toLowerCase toolName = "grep" → remap_object toolName o = remap_grep o.
Proof. intros H. unfold remap_object. by rewrite H, String.eqb_refl. Qed.

Lemma remap_object_glob toolName o :
  toLowerCase toolName = "glob" → remap_object toolName o = remap_glob o.
Proof.
  intros H. unfold remap_object. rewrite H.
  change (String.eqb "glob" "grep") with false. by rewrite String.eqb_refl.
Qed.

Lemma remap_grep_get_tail o k :
  k ≠ "includes" → k ≠ "include" → k ≠ "ignore_case" → k ≠ "ignoreCase" →
  k ≠ "-n" → k ≠ "lineNumbers" → k ∉ boolParams →
  get (remap_grep o) k = get (remap_glob o) k.
Proof. intros. apply get_lookup_eq. unfold remap_grep. by apply remap_grep_tail_other. Qed.

(** The arguments the remapping does not know are left alone: for every
    tool, a property outside the twelve names handled for [grep] is the same
    before and after; for a tool other than [grep], so is every property
    outside [description], [query] and [pattern]; and for a tool that is
    neither [grep] nor [glob] the whole object is unchanged. *)
Theorem remap_leaves_other_keys (toolName : string) (o : gmap string jsval) :
  ∃ o', remapFunctionCallArgs toolName (JObj o) = JObj o'
        ∧ (∀ k, k ∉ grep_keys → o' !! k = o !! k)
        ∧ (toLowerCase toolName ≠ "grep" →
           ∀ k, k ∉ glob_keys → o' !! k = o !! k)
        ∧ (toLowerCase toolName ≠ "grep" → toLowerCase toolName ≠ "glob" →
           o' = o).
Proof.
  exists (remap_object toolName o). split; [reflexivity|]. unfold remap_object.
  destruct (String.eqb_spec (toLowerCase toolName) "grep") as [Hg|Hg];
    [|destruct (String.eqb_spec (toLowerCase toolName) "glob") as [Hl|Hl]].
  - split; [intros k Hk; by apply remap_grep_other|]. split; by intros [].
  - split; [|split; [|by intros _ []]].
    + intros k Hk. apply remap_glob_other. unfold grep_keys, glob_keys in *.
      rewrite !not_elem_of_cons in Hk. rewrite !not_elem_of_cons.
      destruct Hk as (? & ? & ? & _). repeat split; try done.
      apply not_elem_of_nil.
    + intros _ k Hk. by apply remap_glob_other.
  - repeat split; done.
Qed.

Lemma settled_string o p s :
  settled o p → get o p = JStr s → coerceToBool (JStr s) = None.
Proof. unfold settled. intros H Hs. by rewrite Hs in H. Qed.

(** After the call, for [grep] and [glob] alike, neither [description] nor
    [query] holds a value; for [grep], neither do [includes], [ignore_case]
    and [-n], and no boolean parameter holds a string that [coerceToBool]
    understands. *)
Theorem remap_result_is_canonical (toolName : string) (o : gmap string jsval) :
  toLowerCase toolName = "grep" ∨ toLowerCase toolName = "glob" →
  ∃ o', remapFunctionCallArgs toolName (JObj o) = JObj o'
        ∧ get o' "description" = JUndefined ∧ get o' "query" = JUndefined
        ∧ (toLowerCase toolName = "grep" →
           get o' "includes" = JUndefined ∧ get o' "ignore_case" = JUndefined
           ∧ get o' "-n" = JUndefined
           ∧ ∀ p s, p ∈ boolParams → get o' p = JStr s →
                    coerceToBool (JStr s) = None).
Proof.
  intros [H|H]; exists (remap_object toolName o); (split; [reflexivity|]).
  - rewrite (remap_object_grep _ _ H).
    destruct (remap_grep_canonical o) as (Hd & Hq & Hi & Hc & Hn & Hb).
    split; [done|]. split; [done|]. intros _.
    split; [done|]. split; [done|]. split; [done|].
    intros p s Hp Hs. apply (settled_string (remap_grep o) p); [|exact Hs].
    by apply Hb.
  - rewrite (remap_object_glob _ _ H).
    destruct (remap_glob_canonical o) as (Hd & Hq).
    split; [done|]. split; [done|]. intros Hg. by rewrite H in Hg.
Qed.

Lemma remap_result_is_canonical_witness :
  ∃ o', remapFunctionCallArgs "grep"
          (JObj {["query" := JStr "TODO"; "-n" := JStr "maybe";
                  "regex" := JStr "YES"]}) = JObj o'
        ∧ get o' "description" = JUndefined ∧ get o' "query" = JUndefined
        ∧ (toLowerCase "grep" = "grep" →
           get o' "includes" = JUndefined ∧ get o' "ignore_case" = JUndefined
           ∧ get o' "-n" = JUndefined
           ∧ ∀ p s, p ∈ boolParams → get o' p = JStr s →
                    coerceToBool (JStr s) = None).
Proof.
  apply (remap_result_is_canonical "grep"). left. reflexivity.
Defined.

(** When [pattern] holds no value, the call fills it from the malformed
    keys, [description] first: it ends up with the value of [description]
    if that is defined, and with the value of [query] otherwise (so it stays
    undefined when neither is there). *)
Theorem remap_fills_missing_pattern (toolName : string) (o : gmap string jsval) :
  toLowerCase toolName = "grep" ∨ toLowerCase toolName = "glob" →
  get o "pattern" = JUndefined →
  ∃ o', remapFunctionCallArgs toolName (JObj o) = JObj o'
        ∧ get o' "pattern" = pattern_source o.
Proof.
  intros [H|H] Hp; exists (remap_object toolName o); (split; [reflexivity|]).
  - rewrite (remap_object_grep _ _ H).
    rewrite remap_grep_get_tail by (try done; not_bool_param).
    by apply remap_glob_pattern.
  - rewrite (remap_object_glob _ _ H). by apply remap_glob_pattern.
Qed.

Lemma remap_fills_missing_pattern_witness :
  ∃ o', remapFunctionCallArgs "glob"
          (JObj {["description" := JStr "*.js"; "query" := JStr "*.ts"]})
        = JObj o'
        ∧ get o' "pattern"
          = pattern_source {["description" := JStr "*.js"; "query" := JStr "*.ts"]}.
Proof.
  apply (remap_fills_missing_pattern "glob"); [right|]; reflexivity.
Defined.

Example description_wins_over_query :
  pattern_source {["description" := JStr "*.js"; "query" := JStr "*.ts"]}
  = JStr "*.js".
Proof. reflexivity. Qed.

(** The value [remap_includes] leaves under [include]. *)
Definition include_after (o : gmap string jsval) : jsval :=
  if is_undefined (get o "include") && negb (is_undefined (get o "includes"))
  then
    let includeStr := include_string (get o "includes") in
    if truthy (JStr includeStr) then JStr includeStr else JUndefined
  else get o "include".

Lemma remap_includes_to o : get (remap_includes o) "include" = include_after o.
Proof.
  unfold remap_includes, include_after.
  destruct (is_undefined (get o "includes")) eqn:Hi; cbn [negb].
  - by rewrite andb_false_r.
  - rewrite andb_true_r, get_delete_ne by done.
    destruct (is_undefined (get o "include")) eqn:Hc.
    + cbv zeta. destruct (truthy (JStr (include_string (get o "includes")))).
      * apply get_insert_eq.
      * rewrite get_delete_ne by done. by apply is_undefined_true.
    + by rewrite get_delete_ne.
Qed.

Lemma not_glob_key k :
  k ≠ "description" → k ≠ "query" → k ≠ "pattern" → k ∉ glob_keys.
Proof.
  intros. unfold glob_keys. rewrite !not_elem_of_cons.
  repeat split; try done. apply not_elem_of_nil.
Qed.

Lemma remap_glob_get_other o k :
  k ≠ "description" → k ≠ "query" → k ≠ "pattern" →
  get (remap_glob o) k = get o k.
Proof. intros. by apply get_lookup_eq, remap_glob_other, not_glob_key. Qed.

Lemma include_after_glob o : include_after (remap_glob o) = include_after o.
Proof.
  unfold include_after.
  by rewrite (remap_glob_get_other o "include"),
             (remap_glob_get_other o "includes").
Qed.

(** For [grep], [includes] never survives the call, and [include] is
    written only when it held no value and [includes] did: it then holds
    the comma-joined string elements of the array (or the string itself),
    unless that string is empty, in which case [include] stays undefined.
    An [include] that was there is kept. *)
Theorem grep_includes_becomes_include (toolName : string) (o : gmap string jsval) :
  toLowerCase toolName = "grep" →
  ∃ o', remapFunctionCallArgs toolName (JObj o) = JObj o'
        ∧ get o' "includes" = JUndefined
        ∧ get o' "include" = include_after o
        ∧ (get o "include" ≠ JUndefined → get o' "include" = get o "include")
        ∧ (∀ s, get o' "include" = JStr s → get o "include" = JUndefined →
                s ≠ "").
Proof.
  intros H. exists (remap_object toolName o). split; [reflexivity|].
  rewrite (remap_object_grep _ _ H).
  assert (get (remap_grep o) "include" = include_after o) as Hinc.
  { unfold remap_grep. apply (eq_trans (y := get (remap_includes (remap_glob o)) "include")).
    - apply get_lookup_eq. rewrite coerce_loop_other by not_bool_param.
      by rewrite remap_dash_n_other, move_property_other.
    - by rewrite remap_includes_to, include_after_glob. }
  split; [by destruct (remap_grep_canonical o) as (_ & _ & ? & _)|].
  split; [done|]. rewrite Hinc. unfold include_after. split.
  - intros Hdef. apply is_undefined_false in Hdef. by rewrite Hdef.
  - intros s Hs Hundef. rewrite Hundef in Hs. cbn [is_undefined andb] in Hs.
    destruct (negb (is_undefined (get o "includes"))); [|done].
    cbv zeta in Hs. unfold truthy in Hs.
    destruct (String.eqb (include_string (get o "includes")) "") eqn:Ht;
      cbn [negb] in Hs; [done|].
    injection Hs as <-. by apply String.eqb_neq.
Qed.

Lemma grep_includes_becomes_include_witness :
  ∃ o', remapFunctionCallArgs "grep"
          (JObj {["includes" := JArr [JStr "*.js"; JBool true; JStr "*.ts"]]})
        = JObj o'
        ∧ get o' "includes" = JUndefined
        ∧ get o' "include"
          = include_after {["includes" := JArr [JStr "*.js"; JBool true; JStr "*.ts"]]}
        ∧ (get {["includes" := JArr [JStr "*.js"; JBool true; JStr "*.ts"]]}
             "include" ≠ JUndefined →
           get o' "include"
           = get {["includes" := JArr [JStr "*.js"; JBool true; JStr "*.ts"]]}
               "include")
        ∧ (∀ s, get o' "include" = JStr s →
                get {["includes" := JArr [JStr "*.js"; JBool true; JStr "*.ts"]]}
                  "include" = JUndefined →
                s ≠ "").
Proof. apply (grep_includes_becomes_include "grep"). reflexivity. Defined.

Example include_after_examples :
  include_after {["includes" := JArr [JStr "*.js"; JBool true; JStr "*.ts"]]}
    = JStr "*.js,*.ts"
  ∧ include_after {["includes" := JArr [JNull]]} = JUndefined
  ∧ include_after {["includes" := JStr "*.md"; "include" := JStr "*.v"]}
    = JStr "*.v".
Proof. repeat split; reflexivity. Qed.

(** For [grep], the three boolean parameters that no other key is renamed
    to end up as the loop over [boolParams] leaves them: a string that
    [coerceToBool] understands becomes that boolean, and every other value,
    an unknown string or a value that is not a string, is kept as it is. *)
Theorem grep_coerces_boolean_strings
    (toolName : string) (o : gmap string jsval) (p : string) :
  toLowerCase toolName = "grep" →
  p ∈ ["caseSensitive"; "regex"; "wholeWord"] →
  ∃ o', remapFunctionCallArgs toolName (JObj o) = JObj o'
        ∧ get o' p = coerced (get o p).
Proof.
  intros H Hp. exists (remap_object toolName o). split; [reflexivity|].
  rewrite (remap_object_grep _ _ H). unfold remap_grep.
  assert (p ∈ boolParams) as Hin.
  { unfold boolParams. rewrite !elem_of_cons in Hp. rewrite !elem_of_cons.
    tauto. }
  rewrite coerce_loop_same by done. f_equal. apply get_lookup_eq.
  rewrite !elem_of_cons in Hp.
  destruct Hp as [-> | [-> | [-> | Hp]]]; [| | |by apply elem_of_nil in Hp];
    by rewrite remap_dash_n_other, move_property_other, remap_includes_other,
               !move_property_other.
Qed.

Lemma grep_coerces_boolean_strings_witness :
  ∃ o', remapFunctionCallArgs "grep"
          (JObj {["regex" := JStr "Yes"; "wholeWord" := JStr "perhaps"]})
        = JObj o'
        ∧ get o' "regex"
          = coerced (get {["regex" := JStr "Yes"; "wholeWord" := JStr "perhaps"]}
                         "regex").
Proof.
  apply (grep_coerces_boolean_strings "grep"); [reflexivity|].
  right. left.
Defined.

(** What the [ignore_case] block leaves under [ignoreCase], and the [-n]
    block under [lineNumbers], before the loop over [boolParams]. *)
Definition ignoreCase_source (o : gmap string jsval) : jsval :=
  if is_undefined (get o "ignore_case") then get o "ignoreCase"
  else if is_undefined (get o "ignoreCase") then get o "ignore_case"
  else get o "ignoreCase".

Definition lineNumbers_source (o : gmap string jsval) : jsval :=
  if is_undefined (get o "-n") then get o "lineNumbers"
  else if is_undefined (get o "lineNumbers") then
         match coerceToBool (get o "-n") with
         | Some b => JBool b
         | None => JUndefined
         end
  else get o "lineNumbers".

Lemma remap_dash_n_to o :
  get (remap_dash_n o) "lineNumbers" = lineNumbers_source o.
Proof.
  unfold remap_dash_n, lineNumbers_source.
  destruct (is_undefined (get o "-n")); [done|].
  rewrite get_delete_ne by done.
  destruct (coerceToBool (get o "-n")).
  - destruct (is_undefined (get o "lineNumbers")).
    + apply get_insert_eq.
    + by apply get_delete_ne.
  - rewrite get_delete_ne by done.
    destruct (is_undefined (get o "lineNumbers")) eqn:E; [|done].
    by apply is_undefined_true.
Qed.

Lemma remap_dash_n_get_other o k :
  k ≠ "-n" → k ≠ "lineNumbers" → get (remap_dash_n o) k = get o k.
Proof. intros. by apply get_lookup_eq, remap_dash_n_other. Qed.

Lemma remap_head_get o k :
  k ≠ "description" → k ≠ "query" → k ≠ "pattern" →
  k ≠ "includes" → k ≠ "include" →
  get (remap_includes (remap_glob o)) k = get o k.
Proof.
  intros. apply get_lookup_eq. rewrite remap_includes_other by done.
  by apply remap_glob_other, not_glob_key.
Qed.

(** For [grep], the renamed flags go through the boolean coercion as well:
    [ignoreCase] ends up as the coercion of its own value if it had one and
    of the value of [ignore_case] otherwise; [lineNumbers] as the coercion
    of its own value if it had one, and otherwise as the boolean
    [coerceToBool] reads in the value of [-n] (undefined when it reads
    none). *)
Theorem grep_renames_then_coerces_flags
    (toolName : string) (o : gmap string jsval) :
  toLowerCase toolName = "grep" →
  ∃ o', remapFunctionCallArgs toolName (JObj o) = JObj o'
        ∧ get o' "ignoreCase" = coerced (ignoreCase_source o)
        ∧ get o' "lineNumbers" = coerced (lineNumbers_source o).
Proof.
  intros H. exists (remap_object toolName o). split; [reflexivity|].
  rewrite (remap_object_grep _ _ H). unfold remap_grep.
  fold (remap_glob o). split.
  - rewrite coerce_loop_same by (unfold boolParams; apply elem_of_cons; by left).
    f_equal.
    rewrite (remap_dash_n_get_other _ "ignoreCase") by done.
    rewrite move_property_to by done. unfold ignoreCase_source.
    by rewrite !remap_head_get.
  - rewrite coerce_loop_same
      by (unfold boolParams; apply elem_of_cons; right; apply elem_of_cons; by left).
    f_equal. rewrite remap_dash_n_to. unfold lineNumbers_source.
    by rewrite !move_property_get_other, !remap_head_get.
Qed.

Lemma grep_renames_then_coerces_flags_witness :
  ∃ o', remapFunctionCallArgs "GREP"
          (JObj {["ignore_case" := JStr "TRUE";
                  "-n" := JNum (S754_finite false 1 0)]}) = JObj o'
        ∧ get o' "ignoreCase"
          = coerced (ignoreCase_source
                       {["ignore_case" := JStr "TRUE";
                         "-n" := JNum (S754_finite false 1 0)]})
        ∧ get o' "lineNumbers"
          = coerced (lineNumbers_source
                       {["ignore_case" := JStr "TRUE";
                         "-n" := JNum (S754_finite false 1 0)]}).
Proof. apply (grep_renames_then_coerces_flags "GREP"). reflexivity. Defined.

Example renamed_flags_examples :
  coerced (ignoreCase_source {["ignore_case" := JStr "TRUE"]}) = JBool true
  ∧ coerced (lineNumbers_source {["-n" := JNum (S754_finite false 1 0)]})
    = JBool true
  ∧ coerced (lineNumbers_source {["-n" := JStr "sometimes"]}) = JUndefined
  ∧ coerced (lineNumbers_source {["-n" := JStr "1"; "lineNumbers" := JBool false]})
    = JBool false.
Proof. repeat split; reflexivity. Qed.

End MappersMore.

(* ===================================================================== *)
(** * More on the signature cache                                         *)
(* ===================================================================== *)

Module SignatureCacheMore.
Import SignatureCache.
#[local] Open Scope Z_scope.

Section Cache.

Variable TTL : Z.
Variable MIN : Z.

#[local] Abbreviation expired := (expired TTL).
#[local] Abbreviation sweep := (sweep TTL).
#[local] Abbreviation cleanupCache := (cleanupCache TTL).
#[local] Abbreviation getCachedSignature := (getCachedSignature TTL).
#[local] Abbreviation getCachedSignatureFamily := (getCachedSignatureFamily TTL).
#[local] Abbreviation cacheThinkingSignature := (cacheThinkingSignature MIN).
#[local] Abbreviation exec := (exec TTL MIN).
#[local] Abbreviation run := (run TTL MIN).

(** What a read returns, as a function of the map alone. *)
Definition live {E} `{Timestamped E} {A} (payload : E → A) (now : Z)
    (cache : gmap string E) (key : string) : option A :=
  if String.eqb key "" then None
  else match cache !! key with
       | Some entry => if expired now entry then None else Some (payload entry)
       | None => None
       end.

Lemma getCachedSignature_live now id st :
  (getCachedSignature now id st).1 = live signature now (signatureCache st) id.
Proof.
  unfold SignatureCache.getCachedSignature, live.
  destruct (String.eqb id ""); [done|].
  destruct (signatureCache st !! id); [|done]. by destruct (expired now _).
Qed.

Lemma getCachedSignatureFamily_live now sig st :
  (getCachedSignatureFamily now sig st).1
  = live modelFamily now (thinkingSignatureCache st) sig.
Proof.
  unfold SignatureCache.getCachedSignatureFamily, live.
  destruct (String.eqb sig ""); [done|].
  destruct (thinkingSignatureCache st !! sig); [|done].
  by destruct (expired now _).
Qed.

(** An entry that has expired stays expired as the clock advances. *)
Lemma expired_mono {E} `{Timestamped E} (t1 t2 : Z) (e : E) :
  t1 ≤ t2 → expired t1 e = true → expired t2 e = true.
Proof. intros Hle. rewrite !expired_true. lia. Qed.

(** Removing entries that have expired by [t1] changes no read made at a
    later time. *)
Lemma live_drop_expired {E} `{Timestamped E} {A} (payload : E → A)
    (t1 t2 : Z) (cache cache' : gmap string E) (key : string) :
  t1 ≤ t2 →
  (∀ k, cache' !! k = cache !! k
        ∨ (cache' !! k = None ∧ ∃ e, cache !! k = Some e ∧ expired t1 e = true)) →
  live payload t2 cache' key = live payload t2 cache key.
Proof.
  intros Hle Hsub. unfold live. destruct (String.eqb key ""); [done|].
  destruct (Hsub key) as [-> | (-> & e & -> & He)]; [done|].
  by rewrite (expired_mono t1 t2 e Hle He).
Qed.

Lemma sweep_drops_expired {E} `{Timestamped E} t (cache : gmap string E) k :
  sweep t cache !! k = cache !! k
  ∨ (sweep t cache !! k = None ∧ ∃ e, cache !! k = Some e ∧ expired t e = true).
Proof.
  rewrite sweep_lookup. destruct (cache !! k) as [e|]; [|by left].
  destruct (expired t e) eqn:He; [right; eauto | by left].
Qed.


Lemma getCachedSignature_drops_expired now id st k :
  signatureCache (getCachedSignature now id st).2 !! k = signatureCache st !! k
  ∨ (signatureCache (getCachedSignature now id st).2 !! k = None
     ∧ ∃ e, signatureCache st !! k = Some e ∧ expired now e = true).
Proof.
  unfold SignatureCache.getCachedSignature.
  destruct (String.eqb id ""); [by left|].
  destruct (signatureCache st !! id) as [e|] eqn:Hid; [|by left].
  destruct (expired now e) eqn:He; [|by left]. cbn.
  destruct (decide (k = id)) as [->|Hne].
  - right. rewrite lookup_delete_eq. eauto.
  - left. by rewrite lookup_delete_ne.
Qed.

Lemma getCachedSignatureFamily_drops_expired now sig st k :
  thinkingSignatureCache (getCachedSignatureFamily now sig st).2 !! k
    = thinkingSignatureCache st !! k
  ∨ (thinkingSignatureCache (getCachedSignatureFamily now sig st).2 !! k = None
     ∧ ∃ e, thinkingSignatureCache st !! k = Some e ∧ expired now e = true).
Proof.
  unfold SignatureCache.getCachedSignatureFamily.
  destruct (String.eqb sig ""); [by left|].
  destruct (thinkingSignatureCache st !! sig) as [e|] eqn:Hid; [|by left].
  destruct (expired now e) eqn:He; [|by left]. cbn.
  destruct (decide (k = sig)) as [->|Hne].
  - right. rewrite lookup_delete_eq. eauto.
  - left. by rewrite lookup_delete_ne.
Qed.

Lemma getCachedSignature_thinking now id st :
  thinkingSignatureCache (getCachedSignature now id st).2
  = thinkingSignatureCache st.
Proof.
  unfold SignatureCache.getCachedSignature.
  destruct (String.eqb id ""); [done|].
  destruct (signatureCache st !! id) as [e|]; [|done].
  by destruct (expired now e).
Qed.

Lemma getCachedSignatureFamily_signatures now sig st :
  signatureCache (getCachedSignatureFamily now sig st).2 = signatureCache st.
Proof.
  unfold SignatureCache.getCachedSignatureFamily.
  destruct (String.eqb sig ""); [done|].
  destruct (thinkingSignatureCache st !! sig) as [e|]; [|done].
  by destruct (expired now e).
Qed.

(** The thinking-signature cache round trip: a signature that is not empty
    and at least [MIN_SIGNATURE_LENGTH] long, stored with a family at
    [stored], is read back with that family as long as [read - stored] does
    not exceed the TTL, and as [null] once it does. *)
Theorem thinking_signature_roundtrip
    (st : Caches) (sig family : string) (stored read : Z) :
  sig ≠ "" → MIN ≤ Z.of_nat (String.length sig) →
  (read - stored ≤ TTL →
     (getCachedSignatureFamily read sig
        (cacheThinkingSignature stored sig family st)).1 = Some family)
  ∧ (TTL < read - stored →
     (getCachedSignatureFamily read sig
        (cacheThinkingSignature stored sig family st)).1 = None).
Proof.
  intros Hne Hlen. rewrite getCachedSignatureFamily_live.
  unfold SignatureCache.cacheThinkingSignature, live.
  rewrite (eqb_empty_false sig Hne).
  assert ((Z.of_nat (String.length sig) <? MIN) = false) as ->
    by by apply Z.ltb_ge.
  cbn. rewrite lookup_insert_eq. split; intros Hage.
  - assert (expired read {| modelFamily := family; thinking_timestamp := stored |}
            = false) as -> by by apply expired_false.
    done.
  - assert (expired read {| modelFamily := family; thinking_timestamp := stored |}
            = true) as -> by by apply expired_true.
    done.
Qed.

(** The eviction a read performs cannot be observed: with a clock that does
    not go back, every later read, of either cache and of any key, returns
    what it would have returned had the earlier read not happened. *)
Theorem reads_do_not_disturb_later_reads
    (st : Caches) (first later : Z) (key1 key2 : string) :
  first ≤ later →
  (getCachedSignature later key2 (getCachedSignature first key1 st).2).1
    = (getCachedSignature later key2 st).1
  ∧ (getCachedSignatureFamily later key2 (getCachedSignature first key1 st).2).1
    = (getCachedSignatureFamily later key2 st).1
  ∧ (getCachedSignature later key2 (getCachedSignatureFamily first key1 st).2).1
    = (getCachedSignature later key2 st).1
  ∧ (getCachedSignatureFamily later key2
       (getCachedSignatureFamily first key1 st).2).1
    = (getCachedSignatureFamily later key2 st).1.
Proof.
  intros Hle. rewrite !getCachedSignature_live, !getCachedSignatureFamily_live.
  rewrite getCachedSignature_thinking, getCachedSignatureFamily_signatures.
  split; [|split; [done|split; [done|]]].
  - apply (live_drop_expired _ first later); [done|].
    apply getCachedSignature_drops_expired.
  - apply (live_drop_expired _ first later); [done|].
    apply getCachedSignatureFamily_drops_expired.
Qed.

(** The sweep is housekeeping only: with a clock that does not go back, a
    read made after a sweep returns what it would have returned without the
    sweep, in both caches. *)
Theorem sweep_is_invisible_to_reads
    (st : Caches) (swept now : Z) (key : string) :
  swept ≤ now →
  (getCachedSignature now key (cleanupCache swept st)).1
    = (getCachedSignature now key st).1
  ∧ (getCachedSignatureFamily now key (cleanupCache swept st)).1
    = (getCachedSignatureFamily now key st).1.
Proof.
  intros Hle. rewrite !getCachedSignature_live, !getCachedSignatureFamily_live.
  unfold SignatureCache.cleanupCache, cleanupExpiredEntries. cbn.
  split; apply (live_drop_expired _ swept now); try done;
    intros k; apply sweep_drops_expired.
Qed.

Lemma sweep_sweep {E} `{Timestamped E} (t t' : Z) (cache : gmap string E) :
  t ≤ t' →
  sweep t' (sweep t cache) = sweep t' cache
  ∧ sweep t (sweep t' cache) = sweep t' cache.
Proof.
  intros Hle. split; apply map_eq; intros k; rewrite !sweep_lookup;
    destruct (cache !! k) as [e|]; try done.
  - destruct (expired t e) eqn:He; [|done].
    by rewrite (expired_mono t t' e Hle He).
  - destruct (expired t' e) eqn:He'; [done|].
    destruct (expired t e) eqn:He; [|done].
    by rewrite (expired_mono t t' e Hle He) in He'.
Qed.

(** Two sweeps amount to the later one, in whichever order they run; in
    particular a sweep repeated at the same time changes nothing more. *)
Theorem later_sweep_subsumes_earlier (st : Caches) (t t' : Z) :
  t ≤ t' →
  cleanupCache t' (cleanupCache t st) = cleanupCache t' st
  ∧ cleanupCache t (cleanupCache t' st) = cleanupCache t' st.
Proof.
  intros Hle. unfold SignatureCache.cleanupCache, cleanupExpiredEntries. cbn.
  destruct (sweep_sweep t t' (signatureCache st) Hle) as [-> ->].
  by destruct (sweep_sweep t t' (thinkingSignatureCache st) Hle) as [-> ->].
Qed.

(** Storing a signature under an id replaces whatever was stored under it
    (the earlier store leaves no trace), and changes no read of another
    id. *)
Theorem cacheSignature_overwrites
    (st : Caches) (id sig1 sig2 other : string) (t1 t2 now : Z) :
  id ≠ "" → sig2 ≠ "" →
  cacheSignature t2 id sig2 (cacheSignature t1 id sig1 st)
    = cacheSignature t2 id sig2 st
  ∧ (other ≠ id →
     (getCachedSignature now other (cacheSignature t2 id sig2 st)).1
     = (getCachedSignature now other st).1).
Proof.
  intros Hid Hsig. split.
  - unfold cacheSignature at 1 3. rewrite !eqb_empty_false by done. cbn.
    unfold cacheSignature. rewrite eqb_empty_false by done. cbn.
    destruct (String.eqb sig1 ""); cbn; [done|].
    by rewrite insert_insert_eq.
  - intros Hother. rewrite !getCachedSignature_live. unfold live, cacheSignature.
    rewrite (eqb_empty_false id), (eqb_empty_false sig2) by done.
    cbn [orb signatureCache].
    by rewrite lookup_insert_ne.
Qed.

(** The two caches do not interfere: storing into or clearing the thinking
    cache changes no read of a tool signature, storing a tool signature
    changes no read of a family, and after
    [clearThinkingSignatureCache()] every family read is [null]. *)
Theorem caches_are_independent
    (st : Caches) (now t : Z) (key a b : string) :
  (getCachedSignature now key (cacheThinkingSignature t a b st)).1
    = (getCachedSignature now key st).1
  ∧ (getCachedSignature now key (clearThinkingSignatureCache st)).1
    = (getCachedSignature now key st).1
  ∧ (getCachedSignatureFamily now key (cacheSignature t a b st)).1
    = (getCachedSignatureFamily now key st).1
  ∧ (getCachedSignatureFamily now key (clearThinkingSignatureCache st)).1 = None.
Proof.
  rewrite !getCachedSignature_live, !getCachedSignatureFamily_live.
  repeat split.
  - unfold SignatureCache.cacheThinkingSignature. by destruct (_ || _).
  - unfold cacheSignature. by destruct (_ || _).
  - unfold live. cbn. rewrite lookup_empty. by destruct (String.eqb key "").
Qed.

(** Every signature in the tool-signature map is non-empty, under a
    non-empty id. *)
Definition stored_nonempty (st : Caches) : Prop :=
  ∀ k e, signatureCache st !! k = Some e → k ≠ "" ∧ signature e ≠ "".

Lemma exec_stored_nonempty st c : stored_nonempty st → stored_nonempty (exec st c).
Proof.
  intros Inv. destruct c as [now []]; unfold SignatureCache.exec; cbn [fst snd].
  - unfold cacheSignature.
    destruct (String.eqb toolUseId "") eqn:E1; [done|].
    destruct (String.eqb sig "") eqn:E2; [done|]. cbn [orb].
    intros k e. cbn. intros Hk.
    destruct (decide (toolUseId = k)) as [<-|Hne].
    + rewrite lookup_insert_eq in Hk. injection Hk as <-. cbn.
      split; by apply String.eqb_neq.
    + rewrite lookup_insert_ne in Hk by done. by apply (Inv k e).
  - intros k e Hk.
    destruct (getCachedSignature_drops_expired now toolUseId st k) as [H|[H _]];
      rewrite H in Hk; [by apply (Inv k e) | done].
  - unfold SignatureCache.cacheThinkingSignature. by destruct (_ || _).
  - intros k e. rewrite getCachedSignatureFamily_signatures. apply Inv.
  - done.
  - intros k e. unfold SignatureCache.cleanupCache, cleanupExpiredEntries. cbn.
    intros Hk. destruct (sweep_drops_expired now (signatureCache st) k) as [H|[H _]];
      rewrite H in Hk; [by apply (Inv k e) | done].
Qed.

Lemma run_stored_nonempty history : stored_nonempty (run history).
Proof.
  unfold SignatureCache.run.
  assert (stored_nonempty initial) as Hinit
    by (intros k e; cbn; by rewrite lookup_empty).
  revert Hinit. generalize initial.
  induction history as [|c h IH]; intros st Inv; [done|].
  cbn [foldl]. by apply IH, exec_stored_nonempty.
Qed.

(** Whatever calls and sweeps the module has seen since it was loaded,
    [getCachedSignature] never returns an empty signature: it returns
    [null] or a signature some [cacheSignature] call stored, and those are
    not empty. *)
Theorem getCachedSignature_never_empty
    (history : list (Z * call)) (now : Z) (id sig : string) :
  (getCachedSignature now id (run history)).1 = Some sig →
  (0 < String.length sig)%nat.
Proof.
  rewrite getCachedSignature_live. unfold live.
  destruct (String.eqb id ""); [done|].
  destruct (signatureCache (run history) !! id) as [e|] eqn:Hk; [|done].
  destruct (expired now e); [done|]. intros [= <-].
  destruct (run_stored_nonempty history id e Hk) as [_ Hne].
  destruct (signature e); [done | cbn; lia].
Qed.

End Cache.

Lemma thinking_signature_roundtrip_witness :
  (30 - 10 ≤ 100 →
     (getCachedSignatureFamily 100 30 "sig-0123456789"
        (cacheThinkingSignature 10 10 "sig-0123456789" "gemini" initial)).1
     = Some "gemini")
  ∧ (100 < 30 - 10 →
     (getCachedSignatureFamily 100 30 "sig-0123456789"
        (cacheThinkingSignature 10 10 "sig-0123456789" "gemini" initial)).1
     = None).
Proof.
  apply (thinking_signature_roundtrip 100 10 initial "sig-0123456789" "gemini"
           10 30); [discriminate | cbn; lia].
Defined.

(** A state with one entry that expires between the two reads. *)
Definition aged : Caches :=
  cacheSignature 0 "toolu_old" "old" (cacheSignature 90 "toolu_new" "new" initial).

Lemma reads_do_not_disturb_later_reads_witness :
  (getCachedSignature 100 150 "toolu_new"
     (getCachedSignature 100 120 "toolu_old" aged).2).1
    = (getCachedSignature 100 150 "toolu_new" aged).1
  ∧ (getCachedSignatureFamily 100 150 "toolu_new"
       (getCachedSignature 100 120 "toolu_old" aged).2).1
    = (getCachedSignatureFamily 100 150 "toolu_new" aged).1
  ∧ (getCachedSignature 100 150 "toolu_new"
       (getCachedSignatureFamily 100 120 "toolu_old" aged).2).1
    = (getCachedSignature 100 150 "toolu_new" aged).1
  ∧ (getCachedSignatureFamily 100 150 "toolu_new"
       (getCachedSignatureFamily 100 120 "toolu_old" aged).2).1
    = (getCachedSignatureFamily 100 150 "toolu_new" aged).1.
Proof.
  apply (reads_do_not_disturb_later_reads 100 aged 120 150). lia.
Defined.

(** With a clock that goes back the eviction shows: the entry is gone for a
    read made at a time it had not expired yet. *)
Example eviction_shows_when_clock_goes_back :
  (getCachedSignature 100 50 "toolu_old"
     (getCachedSignature 100 120 "toolu_old" aged).2).1 = None
  ∧ (getCachedSignature 100 50 "toolu_old" aged).1 = Some "old".
Proof. split; reflexivity. Qed.

Lemma sweep_is_invisible_to_reads_witness :
  (getCachedSignature 100 150 "toolu_new" (cleanupCache 100 120 aged)).1
    = (getCachedSignature 100 150 "toolu_new" aged).1
  ∧ (getCachedSignatureFamily 100 150 "toolu_new" (cleanupCache 100 120 aged)).1
    = (getCachedSignatureFamily 100 150 "toolu_new" aged).1.
Proof. apply (sweep_is_invisible_to_reads 100 aged 120 150). lia. Defined.

Lemma later_sweep_subsumes_earlier_witness :
  cleanupCache 100 195 (cleanupCache 100 120 aged) = cleanupCache 100 195 aged
  ∧ cleanupCache 100 120 (cleanupCache 100 195 aged) = cleanupCache 100 195 aged.
Proof. apply (later_sweep_subsumes_earlier 100 aged 120 195). lia. Defined.

Lemma cacheSignature_overwrites_witness :
  cacheSignature 20 "toolu_01" "second" (cacheSignature 10 "toolu_01" "first" aged)
    = cacheSignature 20 "toolu_01" "second" aged
  ∧ ("toolu_new" ≠ "toolu_01" →
     (getCachedSignature 100 30 "toolu_new"
        (cacheSignature 20 "toolu_01" "second" aged)).1
     = (getCachedSignature 100 30 "toolu_new" aged).1).
Proof.
  apply (cacheSignature_overwrites 100 aged "toolu_01" "first" "second"
           "toolu_new" 10 20 30); discriminate.
Defined.

Lemma getCachedSignature_never_empty_witness :
  (0 < String.length "c2ln")%nat.
Proof.
  apply (getCachedSignature_never_empty 100 50
           [(10, CacheSignature "toolu_01" "c2ln"); (15, CleanupCache)]
           20 "toolu_01" "c2ln").
  reflexivity.
Defined.

End SignatureCacheMore.

(* ===================================================================== *)
(** * More on the database module                                         *)
(* ===================================================================== *)

Module DatabaseMore.
Import JS Database.

Lemma loadDatabaseModule_loaded w s :
  Database s = true → loadDatabaseModule w s = (Return tt, s).
Proof.
  intros H. unfold loadDatabaseModule, mbind, M_bind, read. by rewrite H.
Qed.

Lemma set_Database_loaded s : Database s = true → set_Database true s = s.
Proof. destruct s as [d e c]. cbn. by intros ->. Qed.

Lemma loadDatabaseModule_Return w s u s1 :
  loadDatabaseModule w s = (Return u, s1) → s1 = set_Database true s.
Proof.
  unfold loadDatabaseModule, mbind, M_bind, read, try_catch, lift, modify, throw.
  destruct (Database s) eqn:Hd.
  { intros [= _ <-]. symmetry. by apply set_Database_loaded. }
  destruct (moduleLoadError s); [done|].
  destruct (require_better_sqlite3 w) as [[]|e]; [by intros [= _ <-]|].
  destruct (isModuleVersionError w e); [|done].
  destruct (attemptAutoRebuild w e); [|done].
  destruct (reload_better_sqlite3 w) as [[]|e']; [by intros [= _ <-] | done].
Qed.

Lemma getDatabaseConnection_cached w dbPath s c :
  Database s = true → dbCache s !! dbPath = Some c → open c = true →
  getDatabaseConnection w dbPath s = (Return dbPath, s).
Proof.
  intros Hd Hc Ho. unfold getDatabaseConnection.
  rewrite (bind_Return _ _ _ _ _ (loadDatabaseModule_loaded w s Hd)).
  unfold mbind at 1, M_bind at 1, read. by rewrite Hc, Ho.
Qed.

(** What a successful [getDatabaseConnection] leaves behind: the module
    loaded and an open connection cached under the path. *)
Lemma getDatabaseConnection_Return w dbPath s db s1 :
  getDatabaseConnection w dbPath s = (Return db, s1) →
  db = dbPath ∧ Database s1 = true ∧ moduleLoadError s1 = moduleLoadError s
  ∧ ∃ c, dbCache s1 !! dbPath = Some c ∧ open c = true.
Proof.
  unfold getDatabaseConnection. intros H.
  apply bind_Return_inv in H as ([] & s0 & Hload & H).
  apply loadDatabaseModule_Return in Hload. subst s0.
  unfold mbind at 1, M_bind at 1, read in H. cbn [dbCache set_Database] in H.
  assert (∀ s2, Database s2 = true → moduleLoadError s2 = moduleLoadError s →
            (_ ← lift (new_Db w dbPath);
             _ ← modify (λ s, set_dbCache
                           (<[dbPath := {| open := true; _cachedAuthStmt := false |}]>
                              (dbCache s)) s);
             mret dbPath) s2 = (Return db, s1) →
            db = dbPath ∧ Database s1 = true
            ∧ moduleLoadError s1 = moduleLoadError s
            ∧ ∃ c, dbCache s1 !! dbPath = Some c ∧ open c = true) as Hfresh.
  { intros s2 Hd He. unfold mbind, M_bind, lift, modify, mret, M_ret.
    destruct (new_Db w dbPath) as [[]|e]; [|done]. intros [= <- <-]. cbn.
    repeat split; try done. eexists. by rewrite lookup_insert_eq. }
  destruct (dbCache s !! dbPath) as [c|] eqn:Hc.
  - destruct (open c) eqn:Ho.
    + injection H as <- <-. cbn. repeat split; eauto.
    + apply bind_Return_inv in H as ([] & s2 & Hmod & H).
      injection Hmod as <-. by apply Hfresh in H.
  - by apply Hfresh in H.
Qed.

(** A connection is opened once: after [getDatabaseConnection(path)] has
    succeeded, calling it again returns the cached connection and changes
    nothing, whatever the driver and the file system have become (it neither
    loads the module nor opens the file again). *)
Theorem connection_is_reused (w : World) (dbPath : string) (s s1 : Module) (db : string) :
  getDatabaseConnection w dbPath s = (Return db, s1) →
  ∀ w', getDatabaseConnection w' dbPath s1 = (Return db, s1)
        ∧ isDatabaseAccessible w' dbPath s1 = (Return true, s1).
Proof.
  intros H w'.
  apply getDatabaseConnection_Return in H as (-> & Hd & _ & c & Hc & Ho).
  pose proof (getDatabaseConnection_cached w' dbPath s1 c Hd Hc Ho) as Hconn.
  split; [done|]. unfold isDatabaseAccessible.
  apply try_catch_Return. by rewrite (bind_Return _ _ _ _ _ Hconn).
Qed.

(** A world in which nothing works any more. *)
Definition broken_world : World :=
  {| require_better_sqlite3 := Throw (Error "Cannot find module 'better-sqlite3'");
     isModuleVersionError := λ _, false;
     attemptAutoRebuild := λ _, false;
     reload_better_sqlite3 := Throw (Error "Cannot find module 'better-sqlite3'");
     new_Db := λ _, Throw {| err_code := Some "SQLITE_CANTOPEN";
                             err_message := "unable to open database file";
                             err_native := false |};
     prepare := λ _, Throw (Error "disk I/O error");
     stmt_get := λ _, Throw (Error "disk I/O error");
     JSON_parse := λ _, Throw (Error "Unexpected token");
     native_code := None |}.

Definition opened : Module :=
  (getDatabaseConnection test_world "./test-database.vscdb" fresh_module).2.

Lemma connection_is_reused_witness :
  getDatabaseConnection broken_world "./test-database.vscdb" opened
    = (Return "./test-database.vscdb", opened)
  ∧ isDatabaseAccessible broken_world "./test-database.vscdb" opened
    = (Return true, opened).
Proof.
  apply (connection_is_reused test_world "./test-database.vscdb" fresh_module).
  reflexivity.
Defined.

(** A failed load is remembered or retried, never anything else.  When
    [loadDatabaseModule] throws, either the error is now (or was already)
    stored in [moduleLoadError], and every later call throws that same error
    without trying to load again; or the first [require] failed with an
    error that is not a version mismatch, nothing was stored, and a later
    call starts over: it succeeds as soon as [require] does. *)
Theorem load_failure_is_remembered_or_retried
    (w : World) (s s' : Module) (e : JsError) :
  loadDatabaseModule w s = (Throw e, s') →
  (moduleLoadError s' = Some e
   ∧ ∀ w', loadDatabaseModule w' s' = (Throw e, s'))
  ∨ (s' = s ∧ require_better_sqlite3 w = Throw e
     ∧ isModuleVersionError w e = false
     ∧ ∀ w', require_better_sqlite3 w' = Return tt →
             loadDatabaseModule w' s' = (Return tt, set_Database true s)).
Proof.
  assert (∀ s0 e0, Database s0 = false → moduleLoadError s0 = Some e0 →
            ∀ w', loadDatabaseModule w' s0 = (Throw e0, s0)) as Hstored.
  { intros s0 e0 Hd He w'.
    unfold loadDatabaseModule, mbind, M_bind, read. by rewrite Hd, He. }
  unfold loadDatabaseModule, mbind, M_bind, read, try_catch, lift, modify, throw.
  destruct (Database s) eqn:Hd; [done|].
  destruct (moduleLoadError s) as [e0|] eqn:He.
  { intros [= <- <-]. left. split; [done|]. by apply Hstored. }
  destruct (require_better_sqlite3 w) as [[]|e1] eqn:Hreq; [done|].
  destruct (isModuleVersionError w e1) eqn:Hv.
  - destruct (attemptAutoRebuild w e1).
    + destruct (reload_better_sqlite3 w) as [[]|e2]; [done|].
      intros [= <- <-]. left. split; [done|]. by apply Hstored.
    + intros [= <- <-]. left. split; [done|]. by apply Hstored.
  - intros [= <- <-]. right. repeat split; try done.
    intros w' Hreq'. by rewrite Hd, He, Hreq'.
Qed.

Lemma load_failure_is_remembered_or_retried_witness :
  (moduleLoadError (loadDatabaseModule stale_module_world fresh_module).2
     = (match (loadDatabaseModule stale_module_world fresh_module).1 with
        | Throw e => Some e
        | Return _ => None
        end)
   ∧ ∀ w', (loadDatabaseModule w'
              (loadDatabaseModule stale_module_world fresh_module).2).1
           = (loadDatabaseModule stale_module_world fresh_module).1)
  ∧ (∀ w', require_better_sqlite3 w' = Return tt →
           loadDatabaseModule w'
             (loadDatabaseModule broken_world fresh_module).2
           = (Return tt, set_Database true fresh_module)).
Proof.
  split.
  - destruct (load_failure_is_remembered_or_retried stale_module_world
                fresh_module
                (loadDatabaseModule stale_module_world fresh_module).2
                (NativeModuleError stale_module_world
                   ("Failed to auto-rebuild native module. Please run manually:" ++ nl
                    ++ "  npm rebuild better-sqlite3" ++ nl
                    ++ "Or if using npx, find the package location in the error and run:" ++ nl
                    ++ "  cd /path/to/better-sqlite3 && npm rebuild")
                   false false)
                eq_refl) as [[Hm Hall] | (_ & Habs & _)]; [|discriminate Habs].
    split; [exact Hm|]. intros w'. by rewrite Hall.
  - destruct (load_failure_is_remembered_or_retried broken_world fresh_module
                (loadDatabaseModule broken_world fresh_module).2
                (Error "Cannot find module 'better-sqlite3'") eq_refl)
      as [[Habs _] | (_ & _ & _ & Hretry)]; [discriminate Habs | exact Hretry].
Defined.

(** The part of [getAuthStatus]'s [try] block that follows the query:
    what is made of the row. *)
Definition read_row (w : World) (row : option Row) : M jsval :=
  match row with
  | Some {| value := Some text |} =>
      if String.eqb text "" then
        throw (Error "No auth status found in database")
      else
        authData ← lift (JSON_parse w text);
        apiKey ← lift (read_property authData "apiKey");
        if truthy apiKey then mret authData
        else throw (Error "Auth data missing apiKey field")
  | _ => throw (Error "No auth status found in database")
  end.

(** The state in which the query runs: the connection under [dbPath] has
    its statement. *)
Definition prepared (dbPath : string) (c : Connection) (s : Module) : Module :=
  if _cachedAuthStmt c then s
  else set_dbCache (<[dbPath := {| open := open c; _cachedAuthStmt := true |}]>
                      (dbCache s)) s.

(** With a connection at hand and a statement that prepares, the [try]
    block is the query followed by [read_row]. *)
Lemma getAuthStatus_try_connected w dbPath s db s1 c :
  getDatabaseConnection w dbPath s = (Return db, s1) →
  dbCache s1 !! dbPath = Some c →
  (_cachedAuthStmt c = false → prepare w dbPath = Return tt) →
  getAuthStatus_try w dbPath s
  = (row ← lift (stmt_get w dbPath); read_row w row) (prepared dbPath c s1).
Proof.
  intros Hconn Hc Hprep. unfold getAuthStatus_try.
  destruct (getDatabaseConnection_Return _ _ _ _ _ Hconn) as (-> & _).
  rewrite (bind_Return _ _ _ _ _ Hconn).
  unfold mbind at 1, M_bind at 1, read. rewrite Hc. unfold prepared.
  destruct (_cachedAuthStmt c) eqn:Hs; [done|].
  unfold mbind at 1 2, M_bind at 1 2, lift at 1, modify.
  by rewrite (Hprep eq_refl).
Qed.

(** Once [getAuthStatus(path)] has returned a record, the connection and
    its prepared statement are cached: a further call neither loads the
    module, nor opens the file, nor prepares the statement again.  It only
    runs the query and parses the row, so in any world that answers those
    two as before it returns the same record and leaves the state as it
    is. *)
Theorem getAuthStatus_is_repeatable
    (w : World) (dbPath : string) (s s1 : Module) (v : jsval) :
  getAuthStatus w dbPath s = (Return v, s1) →
  ∀ w', stmt_get w' dbPath = stmt_get w dbPath →
        (∀ text, JSON_parse w' text = JSON_parse w text) →
        getAuthStatus w' dbPath s1 = (Return v, s1).
Proof.
  intros H w' Hget Hparse.
  assert (∃ c, Database s1 = true ∧ dbCache s1 !! dbPath = Some c
               ∧ open c = true ∧ _cachedAuthStmt c = true
               ∧ (row ← lift (stmt_get w dbPath); read_row w row) s1
                 = (Return v, s1)) as (c & Hd & Hc & Ho & Hst & Hrow).
  { unfold getAuthStatus, try_catch in H.
    destruct (getAuthStatus_try w dbPath s) as [[v0|e0] s0] eqn:Htry;
      [|by destruct (getAuthStatus_catch_throws dbPath e0 s0) as [e Hcatch];
          rewrite Hcatch in H].
    injection H as -> ->. unfold getAuthStatus_try in Htry.
    apply bind_Return_inv in Htry as (db & sa & Hconn & Htry).
    destruct (getDatabaseConnection_Return _ _ _ _ _ Hconn)
      as (-> & Hd & _ & c & Hc & Ho).
    apply bind_Return_inv in Htry as (sa' & sa'' & [= <- <-] & Htry).
    rewrite Hc in Htry.
    apply bind_Return_inv in Htry as ([] & sb & Hprep & Htry).
    assert (∀ sx, (row ← lift (stmt_get w dbPath); read_row w row) sx
                  = (Return v, s1) → sx = s1) as Hsame.
    { intros sx Hx. apply bind_Return_inv in Hx as (row & sy & [= _ <-] & Hx).
      destruct row as [[[text|]]|]; try done. cbn [read_row] in Hx.
      destruct (String.eqb text ""); [done|].
      apply bind_Return_inv in Hx as (a & sz & [= _ <-] & Hx).
      apply bind_Return_inv in Hx as (k & sz' & [= _ <-] & Hx).
      destruct (truthy k); [by injection Hx|done]. }
    change (_ ← lift (stmt_get w dbPath); _) with
      (row ← lift (stmt_get w dbPath); read_row w row) in Htry.
    pose proof (Hsame _ Htry) as ->.
    destruct (_cachedAuthStmt c) eqn:Hst.
    - injection Hprep as <-. exists c. by repeat split.
    - apply bind_Return_inv in Hprep as ([] & sp & [= _ <-] & [= <-]).
      eexists. cbn. rewrite lookup_insert_eq. by repeat split. }
  pose proof (getDatabaseConnection_cached w' dbPath s1 c Hd Hc Ho) as Hconn.
  unfold getAuthStatus. apply try_catch_Return.
  rewrite (getAuthStatus_try_connected w' dbPath s1 dbPath s1 c Hconn Hc)
    by (by rewrite Hst).
  unfold prepared. rewrite Hst. rewrite <- Hrow.
  unfold mbind, M_bind, lift. rewrite Hget.
  destruct (stmt_get w dbPath) as [row|]; [|done].
  destruct row as [[[text|]]|]; try done. cbn [read_row].
  destruct (String.eqb text ""); [done|].
  unfold mbind, M_bind, lift. by rewrite Hparse.
Qed.

(** The test world with a driver that has since lost the file and can no
    longer prepare statements. *)
Definition degraded_world : World :=
  {| require_better_sqlite3 := Throw (Error "Cannot find module 'better-sqlite3'");
     isModuleVersionError := λ _, false;
     attemptAutoRebuild := λ _, false;
     reload_better_sqlite3 := Throw (Error "Cannot find module 'better-sqlite3'");
     new_Db := λ _, Throw {| err_code := Some "SQLITE_CANTOPEN";
                             err_message := "unable to open database file";
                             err_native := false |};
     prepare := λ _, Throw (Error "disk I/O error");
     stmt_get := stmt_get test_world;
     JSON_parse := JSON_parse test_world;
     native_code := None |}.

Lemma getAuthStatus_is_repeatable_witness :
  getAuthStatus degraded_world "./test-database.vscdb"
    (getAuthStatus test_world "./test-database.vscdb" fresh_module).2
  = (Return (JObj {["apiKey" := JStr "test-api-key";
                    "email" := JStr "test@example.com";
                    "name" := JStr "Test User"]}),
     (getAuthStatus test_world "./test-database.vscdb" fresh_module).2).
Proof.
  apply (getAuthStatus_is_repeatable test_world "./test-database.vscdb"
           fresh_module); reflexivity.
Defined.

(** Every error [getAuthStatus] throws carries one of five marks, so a
    caller can always tell the failures apart: the message contains
    ['Database not found'], or ['No auth status'], or ['missing apiKey'], or
    the error is a [NativeModuleError], or the message is ['Failed to read
    Antigravity database: '] followed by the message of the error that was
    caught. *)
Theorem getAuthStatus_errors_are_classified
    (w : World) (dbPath : string) (s s' : Module) (e : JsError) :
  getAuthStatus w dbPath s = (Throw e, s') →
  includes "Database not found" (err_message e) = true
  ∨ includes "No auth status" (err_message e) = true
  ∨ includes "missing apiKey" (err_message e) = true
  ∨ err_native e = true
  ∨ ∃ caught, err_message e = "Failed to read Antigravity database: " ++ caught.
Proof.
  unfold getAuthStatus, try_catch.
  destruct (getAuthStatus_try w dbPath s) as [[v0|e0] s0]; [done|].
  unfold getAuthStatus_catch, throw.
  destruct (bool_decide _).
  { intros [= <- _]. left. apply not_found_message. }
  destruct (includes "No auth status" (err_message e0)) eqn:H1.
  { intros [= <- _]. right. by left. }
  destruct (includes "missing apiKey" (err_message e0)) eqn:H2.
  { intros [= <- _]. right. right. by left. }
  cbn [orb]. destruct (err_native e0) eqn:H3.
  { intros [= <- _]. do 3 right. by left. }
  intros [= <- _]. do 4 right. by eexists.
Qed.

Lemma getAuthStatus_errors_are_classified_witness :
  includes "Database not found"
    (err_message (Error "Database not found at ./non-existent.db. Make sure Antigravity is installed and you are logged in.")) = true
  ∨ includes "No auth status"
      (err_message (Error "Database not found at ./non-existent.db. Make sure Antigravity is installed and you are logged in.")) = true
  ∨ includes "missing apiKey"
      (err_message (Error "Database not found at ./non-existent.db. Make sure Antigravity is installed and you are logged in.")) = true
  ∨ err_native (Error "Database not found at ./non-existent.db. Make sure Antigravity is installed and you are logged in.") = true
  ∨ ∃ caught,
      err_message (Error "Database not found at ./non-existent.db. Make sure Antigravity is installed and you are logged in.")
      = "Failed to read Antigravity database: " ++ caught.
Proof.
  apply (getAuthStatus_errors_are_classified test_world "./non-existent.db"
           fresh_module (set_Database true fresh_module)).
  reflexivity.
Defined.

(** A row without a usable [value]: no row, NULL, or the empty string. *)
Definition row_is_empty (row : option Row) : bool :=
  match row with
  | Some {| value := Some text |} => String.eqb text ""
  | _ => true
  end.

(** [authData.apiKey] as [!authData.apiKey] sees it, for a parsed value on
    which the property read does not throw. *)
Definition apiKey_of (authData : jsval) : jsval :=
  match authData with
  | JObj o => get o "apiKey"
  | _ => JUndefined
  end.

(** With the database open and the statement prepared, what is wrong with
    the stored record decides the error, and the module's own two errors
    reach the caller unwrapped: a missing row or an empty value gives ['No
    auth status found in database']; a parsed value without a truthy
    [apiKey] gives ['Auth data missing apiKey field']; a stored [null]
    makes the property read throw, and that [TypeError] comes out wrapped
    as ['Failed to read Antigravity database: ...']. *)
Theorem getAuthStatus_record_errors
    (w : World) (dbPath : string) (s s1 : Module) (db : string) :
  getDatabaseConnection w dbPath s = (Return db, s1) →
  prepare w dbPath = Return tt →
  (∀ row, stmt_get w dbPath = Return row → row_is_empty row = true →
          (getAuthStatus w dbPath s).1
          = Throw (Error "No auth status found in database"))
  ∧ (∀ text authData,
       stmt_get w dbPath = Return (Some {| value := Some text |}) →
       String.eqb text "" = false →
       JSON_parse w text = Return authData →
       match authData with
       | JUndefined =>
           (getAuthStatus w dbPath s).1
           = Throw (Error "Failed to read Antigravity database: Cannot read properties of undefined (reading 'apiKey')")
       | JNull =>
           (getAuthStatus w dbPath s).1
           = Throw (Error "Failed to read Antigravity database: Cannot read properties of null (reading 'apiKey')")
       | _ =>
           truthy (apiKey_of authData) = false →
           (getAuthStatus w dbPath s).1
           = Throw (Error "Auth data missing apiKey field")
       end).
Proof.
  intros Hconn Hprep.
  destruct (getDatabaseConnection_Return _ _ _ _ _ Hconn)
    as (_ & _ & _ & c & Hc & _).
  pose proof (getAuthStatus_try_connected w dbPath s db s1 c Hconn Hc
                (λ _, Hprep)) as Htry.
  split.
  - intros row Hget Hempty. unfold getAuthStatus, try_catch. rewrite Htry.
    unfold mbind, M_bind, lift. rewrite Hget.
    assert (read_row w row (prepared dbPath c s1)
            = (Throw (Error "No auth status found in database"),
               prepared dbPath c s1)) as ->.
    { destruct row as [[[text|]]|]; try done. cbn in Hempty. cbn [read_row].
      by rewrite Hempty. }
    reflexivity.
  - intros text authData Hget Htext Hparse.
    assert (getAuthStatus_try w dbPath s
            = (apiKey ← lift (read_property authData "apiKey");
               if truthy apiKey then mret authData
               else throw (Error "Auth data missing apiKey field"))
                (prepared dbPath c s1)) as Htry'.
    { rewrite Htry. unfold mbind at 1, M_bind at 1, lift at 1. rewrite Hget.
      cbn [read_row]. rewrite Htext.
      unfold mbind at 1, M_bind at 1, lift at 1. by rewrite Hparse. }
    unfold getAuthStatus, try_catch. rewrite Htry'.
    destruct authData; try reflexivity;
      intros Hfalsy; unfold mbind, M_bind, lift, read_property;
      cbn [apiKey_of] in Hfalsy; try rewrite Hfalsy; reflexivity.
Qed.

(** The test world with an empty [ItemTable]. *)
Definition empty_table_world : World :=
  {| require_better_sqlite3 := Return tt;
     isModuleVersionError := λ _, false;
     attemptAutoRebuild := λ _, false;
     reload_better_sqlite3 := Return tt;
     new_Db := new_Db test_world;
     prepare := λ _, Return tt;
     stmt_get := λ _, Return None;
     JSON_parse := JSON_parse test_world;
     native_code := None |}.

Lemma getAuthStatus_record_errors_witness :
  (getAuthStatus empty_table_world "./test-database.vscdb" fresh_module).1
  = Throw (Error "No auth status found in database").
Proof.
  apply (proj1 (getAuthStatus_record_errors empty_table_world
                  "./test-database.vscdb" fresh_module
                  (getDatabaseConnection empty_table_world
                     "./test-database.vscdb" fresh_module).2
                  "./test-database.vscdb" eq_refl eq_refl) None);
    reflexivity.
Defined.

(** [closeAllConnections()] really forgets the connections: with the module
    loaded, the next [isDatabaseAccessible(path)] goes back to the driver
    for every path, and answers [true] exactly when the driver can open the
    file now. *)
Theorem closeAllConnections_forces_reopen
    (w : World) (dbPath : string) (s : Module) :
  Database s = true →
  (isDatabaseAccessible w dbPath (closeAllConnections s).2).1
  = Return (match new_Db w dbPath with Return _ => true | Throw _ => false end).
Proof.
  intros Hd. unfold isDatabaseAccessible, try_catch, closeAllConnections, modify.
  cbn [snd].
  assert (getDatabaseConnection w dbPath (set_dbCache ∅ s)
          = match new_Db w dbPath with
            | Return _ =>
                (Return dbPath,
                 set_dbCache (<[dbPath := {| open := true;
                                             _cachedAuthStmt := false |}]> ∅)
                             (set_dbCache ∅ s))
            | Throw e => (Throw e, set_dbCache ∅ s)
            end) as Hconn.
  { unfold getDatabaseConnection.
    rewrite (bind_Return _ _ _ _ _
               (loadDatabaseModule_loaded w (set_dbCache ∅ s) Hd)).
    unfold mbind at 1, M_bind at 1, read. cbn [dbCache set_dbCache].
    rewrite lookup_empty. unfold mbind, M_bind, lift, modify, mret, M_ret.
    by destruct (new_Db w dbPath) as [[]|e]. }
  unfold mbind, M_bind. rewrite Hconn. by destruct (new_Db w dbPath).
Qed.

Lemma closeAllConnections_forces_reopen_witness :
  (isDatabaseAccessible broken_world "./test-database.vscdb"
     (closeAllConnections opened).2).1
  = Return (match new_Db broken_world "./test-database.vscdb" with
            | Return _ => true
            | Throw _ => false
            end).
Proof.
  apply (closeAllConnections_forces_reopen broken_world
           "./test-database.vscdb" opened).
  reflexivity.
Defined.

End DatabaseMore.

(* ===================================================================== *)
(** * The request monitor                                                 *)
(* ===================================================================== *)

Module Monitor.
Import JS.

(** [const MAX_BODY_LENGTH = 100 * 1024]. *)
Definition MAX_BODY_LENGTH : nat := 100 * 1024.
Arguments MAX_BODY_LENGTH : simpl never.

Definition TRUNCATED : string := "...[TRUNCATED]".

(** [s.substring(0, MAX_BODY_LENGTH) + '...[TRUNCATED]']. *)
Definition truncate (s : string) : string :=
  substring 0 MAX_BODY_LENGTH s ++ TRUNCATED.

(** [s.length > MAX_BODY_LENGTH]. *)
Definition too_long (s : string) : bool :=
  (MAX_BODY_LENGTH <? String.length s)%nat.

(** [typeof v === 'object']: objects, arrays and [null]. *)
Definition typeof_object (v : jsval) : bool :=
  match v with
  | JNull | JArr _ | JObj _ => true
  | _ => false
  end.

(** A property read [v.k] on a value that is neither [null] nor
    [undefined]: the own property of an object, [undefined] on the other
    values (the names read here, [usage], [model], [input_tokens] and
    [output_tokens], are on no prototype). *)
Definition prop (v : jsval) (k : string) : jsval :=
  match v with
  | JObj o => get o k
  | _ => JUndefined
  end.

(** [a || b]. *)
Definition or_else (a b : jsval) : jsval := if truthy a then a else b.

Definition zero : jsval := JNum (S754_zero false).

(** The variables the middleware closes over for one request:
    [responseBody], [inputTokens], [outputTokens] (and [model], fixed when
    the request arrives). *)
Record Capture : Type :=
  { responseBody : jsval; inputTokens : jsval; outputTokens : jsval }.

Definition initial_capture : Capture :=
  {| responseBody := JNull; inputTokens := zero; outputTokens := zero |}.

(** [res.monitorData], which streaming endpoints fill in: the streamed
    pieces and the usage counters (numbers, 0 at the start). *)
Record MonitorData : Type :=
  { streamedContent : list string;
    usage_input_tokens : spec_float;
    usage_output_tokens : spec_float }.

(** What the handlers read of the request ([originalUrl] is the string
    Express sets on every request). *)
Record Request : Type :=
  { method : string;
    path : string;
    originalUrl : string;
    url : string;
    body : jsval }.

(** The object handed to [db.logRequest]. *)
Record LogData : Type :=
  { log_method : string;
    log_url : string;
    log_status : Z;
    log_duration : Z;
    log_request_body : jsval;
    log_response_body : jsval;
    log_input_tokens : jsval;
    log_output_tokens : jsval;
    log_model : jsval;
    log_error : jsval }.

(** The named parameters [logRequest] binds for the INSERT. *)
Record Row : Type :=
  { row_method : string;
    row_url : string;
    row_status : Z;
    row_duration : Z;
    row_request_body : jsval;
    row_response_body : jsval;
    row_input_tokens : jsval;
    row_output_tokens : jsval;
    row_model : jsval;
    row_error : jsval }.

Section Middleware.

(** [JSON.parse] ([None] when it throws) and [JSON.stringify] ([None] when
    it returns [undefined]), and the conversion [String(v)] of a value that
    is not a string. *)
Variable JSON_parse : string → option jsval.
Variable JSON_stringify : jsval → option string.
Variable ToString : jsval → string.

(** [req.body && req.body.model ? req.body.model : null]. *)
Definition model_of (req : Request) : jsval :=
  if truthy (body req) && truthy (prop (body req) "model")
  then prop (body req) "model" else JNull.

(** [extractTokens(body)]. *)
Definition extractTokens (b : jsval) (c : Capture) : Capture :=
  if truthy b && truthy (prop b "usage") then
    {| responseBody := responseBody c;
       inputTokens := or_else (prop (prop b "usage") "input_tokens") zero;
       outputTokens := or_else (prop (prop b "usage") "output_tokens") zero |}
  else c.

Definition set_responseBody (b : jsval) (c : Capture) : Capture :=
  {| responseBody := b; inputTokens := inputTokens c;
     outputTokens := outputTokens c |}.

(** The wrapper installed as [res.json]: what it records before calling the
    original. *)
Definition on_json (b : jsval) (c : Capture) : Capture :=
  extractTokens b (set_responseBody b c).

(** The wrapper installed as [res.send]. *)
Definition on_send (b : jsval) (c : Capture) : Capture :=
  match b with
  | JStr text =>
      match JSON_parse text with
      | Some parsed => extractTokens parsed (set_responseBody parsed c)
      | None => set_responseBody b c
      end
  | _ => set_responseBody b c
  end.

(** [String(v)]: a string is its own conversion. *)
Definition String_of (v : jsval) : string :=
  match v with
  | JStr s => s
  | _ => ToString v
  end.

(** [x > 0] on a number. *)
Definition positive (x : spec_float) : bool := SFltb (S754_zero false) x.

(** [streamedContent.join('')]. *)
Definition join_all (pieces : list string) : string :=
  fold_right append "" pieces.

(** The ['finish'] handler: the object it passes to [db.logRequest], or
    [None] when it returns without logging.  [start] and [now] are the two
    readings of [Date.now()]. *)
Definition on_finish (start now : Z) (req : Request) (statusCode : Z)
    (monitorData : MonitorData) (c : Capture) : option LogData :=
  let duration := (now - start)%Z in
  let streamed := positive (usage_input_tokens monitorData)
                  || positive (usage_output_tokens monitorData) in
  let inputTokens' :=
    if streamed then JNum (usage_input_tokens monitorData) else inputTokens c in
  let outputTokens' :=
    if streamed then JNum (usage_output_tokens monitorData) else outputTokens c in
  let responseBody' :=
    match streamedContent monitorData with
    | [] => responseBody c
    | pieces => JStr (join_all pieces)
    end in
  if String.eqb (path req) "/health" || String.eqb (path req) "/metrics" then None
  else
    let url' := if String.eqb (originalUrl req) "" then url req
                else originalUrl req in
    let error :=
      if (400 <=? statusCode)%Z then
        if typeof_object responseBody' then
          match JSON_stringify responseBody' with
          | Some s => JStr s
          | None => JUndefined
          end
        else JStr (String_of responseBody')
      else JNull in
    let loggedResBody :=
      match responseBody' with
      | JStr s => if too_long s then JStr (truncate s) else responseBody'
      | _ => responseBody'
      end in
    let reqBodyStr :=
      match body req with
      | JStr s => Some s
      | b => JSON_stringify b
      end in
    let loggedReqBody :=
      match reqBodyStr with
      | Some s => if negb (String.eqb s "") && too_long s then JStr (truncate s)
                  else body req
      | None => body req
      end in
    Some {| log_method := method req;
            log_url := url';
            log_status := statusCode;
            log_duration := duration;
            log_request_body := loggedReqBody;
            log_response_body := loggedResBody;
            log_input_tokens := inputTokens';
            log_output_tokens := outputTokens';
            log_model := model_of req;
            log_error := error |}.

(** [typeof b === 'string' ? b : JSON.stringify(b)]. *)
Definition stringified (b : jsval) : jsval :=
  match b with
  | JStr _ => b
  | _ => match JSON_stringify b with
         | Some s => JStr s
         | None => JUndefined
         end
  end.

(** [logRequest(data)]: the parameters it binds for the INSERT. *)
Definition logRequest_row (data : LogData) : Row :=
  {| row_method := log_method data;
     row_url := log_url data;
     row_status := log_status data;
     row_duration := log_duration data;
     row_request_body := stringified (log_request_body data);
     row_response_body := stringified (log_response_body data);
     row_input_tokens := or_else (log_input_tokens data) zero;
     row_output_tokens := or_else (log_output_tokens data) zero;
     row_model := or_else (log_model data) JNull;
     row_error := or_else (log_error data) JNull |}.

End Middleware.

(** ** Truncation *)

Lemma length_app (s1 s2 : string) :
  String.length (s1 ++ s2) = (String.length s1 + String.length s2)%nat.
Proof. induction s1 as [|c s1 IH]; simpl; [done | by f_equal]. Qed.

Lemma length_substring_0 (m : nat) (s : string) :
  String.length (substring 0 m s) = Nat.min m (String.length s).
Proof.
  revert s. induction m as [|m IH]; intros s; [by destruct s|].
  destruct s as [|c s]; simpl; [done | by f_equal].
Qed.

Lemma too_long_false s :
  too_long s = false ↔ (String.length s ≤ MAX_BODY_LENGTH)%nat.
Proof. unfold too_long. apply Nat.ltb_ge. Qed.

Lemma length_truncate s :
  (String.length (truncate s) ≤ MAX_BODY_LENGTH + 14)%nat.
Proof.
  unfold truncate. rewrite length_app, length_substring_0.
  change (String.length TRUNCATED) with 14%nat.
  generalize MAX_BODY_LENGTH. intros n. lia.
Qed.

(** The response body and the request body as text, for the bound. *)
Definition within_bound (v : jsval) : Prop :=
  match v with
  | JStr s => (String.length s ≤ MAX_BODY_LENGTH + 14)%nat
  | _ => True
  end.

Section Properties.

Variable JSON_parse : string → option jsval.
Variable JSON_stringify : jsval → option string.
Variable ToString : jsval → string.

#[local] Abbreviation on_finish := (on_finish JSON_stringify ToString).
#[local] Abbreviation logRequest_row := (logRequest_row JSON_stringify).

(** The body the ['finish'] handler works on: the streamed pieces joined
    when there are any, what [res.json] or [res.send] recorded otherwise. *)
Definition final_body (monitorData : MonitorData) (c : Capture) : jsval :=
  match streamedContent monitorData with
  | [] => responseBody c
  | pieces => JStr (join_all pieces)
  end.

(** The request body as text, as the handler computes it. *)
Definition request_text (req : Request) : option string :=
  match body req with
  | JStr s => Some s
  | b => JSON_stringify b
  end.

Lemma on_finish_Some start now req statusCode monitorData c data :
  on_finish start now req statusCode monitorData c = Some data →
  String.eqb (path req) "/health" = false
  ∧ String.eqb (path req) "/metrics" = false
  ∧ log_response_body data
    = match final_body monitorData c with
      | JStr s => if too_long s then JStr (truncate s) else JStr s
      | v => v
      end
  ∧ log_request_body data
    = match request_text req with
      | Some s => if negb (String.eqb s "") && too_long s then JStr (truncate s)
                  else body req
      | None => body req
      end
  ∧ log_error data
    = (if (400 <=? statusCode)%Z then
         if typeof_object (final_body monitorData c) then
           match JSON_stringify (final_body monitorData c) with
           | Some s => JStr s
           | None => JUndefined
           end
         else JStr (String_of ToString (final_body monitorData c))
       else JNull).
Proof.
  unfold Monitor.on_finish, final_body, request_text.
  destruct (String.eqb (path req) "/health"); [done|].
  destruct (String.eqb (path req) "/metrics"); [done|]. cbn [orb].
  intros [= <-]. cbn [log_response_body log_request_body log_error].
  split; [done|]. split; [done|]. split; [|split].
  - destruct (streamedContent monitorData) as [|piece pieces];
      [by destruct (responseBody c) | done].
  - by destruct (body req).
  - by destruct (streamedContent monitorData).
Qed.

(** Requests for [/health] and [/metrics] are never logged, and every other
    request is: the handler passes an object to [db.logRequest] exactly when
    the path is neither of the two, and that object carries the method and
    the status of the request. *)
Theorem health_and_metrics_are_not_logged
    (start now : Z) (req : Request) (statusCode : Z)
    (monitorData : MonitorData) (c : Capture) :
  (path req = "/health" ∨ path req = "/metrics" →
   on_finish start now req statusCode monitorData c = None)
  ∧ (path req ≠ "/health" → path req ≠ "/metrics" →
     ∃ data, on_finish start now req statusCode monitorData c = Some data
             ∧ log_method data = method req
             ∧ log_status data = statusCode
             ∧ log_duration data = (now - start)%Z).
Proof.
  unfold Monitor.on_finish. split.
  - intros [-> | ->]; [done|].
    by destruct (String.eqb (path req) "/health").
  - intros H1 H2. apply String.eqb_neq in H1, H2. rewrite H1, H2. cbn [orb].
    eexists. split; [reflexivity|]. done.
Qed.

(** What is logged as text is bounded.  A response body logged as a string
    (a body sent as text that does not parse as JSON, or streamed pieces) is
    at most [MAX_BODY_LENGTH] characters plus the 14 of the truncation mark;
    and so is, always, the request body that reaches the database: the
    middleware truncates its text beyond the limit, and [logRequest]
    stringifies only what the middleware left whole. *)
Theorem logged_text_is_bounded
    (start now : Z) (req : Request) (statusCode : Z)
    (monitorData : MonitorData) (c : Capture) (data : LogData) :
  on_finish start now req statusCode monitorData c = Some data →
  within_bound (log_response_body data)
  ∧ (∀ s, log_response_body data = JStr s →
          row_response_body (logRequest_row data) = JStr s)
  ∧ within_bound (row_request_body (logRequest_row data)).
Proof.
  intros H. apply on_finish_Some in H as (_ & _ & Hres & Hreq & _).
  cbn [Monitor.logRequest_row row_request_body row_response_body].
  split; [|split].
  - rewrite Hres.
    destruct (final_body monitorData c) as [| | | |s| |]; try done.
    destruct (too_long s) eqn:Hlong; cbn [within_bound].
    + apply length_truncate.
    + apply too_long_false in Hlong. lia.
  - by intros s ->.
  - rewrite Hreq. unfold request_text.
    assert (∀ s, too_long s = false → within_bound (JStr s)) as Hshort.
    { intros s Hs. apply too_long_false in Hs. cbn. lia. }
    assert (∀ s, s = "" → within_bound (JStr s)) as Hempty.
    { intros s ->. cbn. lia. }
    destruct (body req) as [| |b|n|s|xs|o] eqn:Hbody; cbn [stringified].
    5: { destruct (String.eqb s "") eqn:He; cbn [negb andb stringified].
         - apply Hempty. by apply String.eqb_eq.
         - destruct (too_long s) eqn:Hl; cbn [stringified];
             [apply length_truncate | by apply Hshort]. }
    all: match goal with
         | |- context [JSON_stringify ?v] =>
             destruct (JSON_stringify v) as [s|] eqn:Hs; cbn [stringified];
               [|by rewrite ?Hs]
         end;
      destruct (String.eqb s "") eqn:He; cbn [negb andb stringified];
      [ rewrite Hs; apply Hempty; by apply String.eqb_eq
      | destruct (too_long s) eqn:Hl; cbn [stringified];
          [apply length_truncate | rewrite Hs; by apply Hshort] ].
Qed.

(** Nothing within the limit is altered, and truncation applies to text
    only: a response body that is not a string, or is one of at most
    [MAX_BODY_LENGTH] characters, is logged as it is; the request body is
    handed on as the very value [req.body] whenever its text is within the
    limit (or it has none). *)
Theorem bodies_within_limit_are_logged_whole
    (start now : Z) (req : Request) (statusCode : Z)
    (monitorData : MonitorData) (c : Capture) (data : LogData) :
  on_finish start now req statusCode monitorData c = Some data →
  (match final_body monitorData c with
   | JStr s => too_long s = false
   | _ => True
   end → log_response_body data = final_body monitorData c)
  ∧ (match request_text req with
     | Some s => too_long s = false
     | None => True
     end → log_request_body data = body req).
Proof.
  intros H. apply on_finish_Some in H as (_ & _ & -> & -> & _). split.
  - destruct (final_body monitorData c); try done. by intros ->.
  - destruct (request_text req) as [s|]; [|done]. intros ->.
    by rewrite andb_false_r.
Qed.

(** The error field follows the status: below 400 it is [null]; from 400 on
    it holds the response body as text, and when that body is a string it
    is the whole string, which is not truncated here.  [logRequest] then
    stores [null] for an empty text as well. *)
Theorem error_follows_status
    (start now : Z) (req : Request) (statusCode : Z)
    (monitorData : MonitorData) (c : Capture) (data : LogData) :
  on_finish start now req statusCode monitorData c = Some data →
  ((statusCode < 400)%Z →
   log_error data = JNull ∧ row_error (logRequest_row data) = JNull)
  ∧ ((400 ≤ statusCode)%Z →
     ∀ s, final_body monitorData c = JStr s →
          log_error data = JStr s
          ∧ row_error (logRequest_row data)
            = if String.eqb s "" then JNull else JStr s).
Proof.
  intros H. apply on_finish_Some in H as (_ & _ & _ & _ & Herr).
  cbn [Monitor.logRequest_row row_error]. rewrite Herr. split.
  - intros Hlt. apply Z.leb_gt in Hlt. by rewrite Hlt.
  - intros Hge s Hs. apply Z.leb_le in Hge. rewrite Hge, Hs.
    cbn [typeof_object String_of]. split; [done|].
    unfold or_else. cbn [truthy]. by destruct (String.eqb s "").
Qed.

(** For a streamed response the stream is the record: when pieces were
    streamed and a usage counter is positive, what [res.json] and
    [res.send] captured plays no part in what is logged. *)
Theorem streamed_response_overrides_capture
    (start now : Z) (req : Request) (statusCode : Z)
    (monitorData : MonitorData) (c c' : Capture) :
  streamedContent monitorData ≠ [] →
  positive (usage_input_tokens monitorData)
  || positive (usage_output_tokens monitorData) = true →
  on_finish start now req statusCode monitorData c
  = on_finish start now req statusCode monitorData c'.
Proof.
  intros Hpieces Husage. unfold Monitor.on_finish. rewrite Husage.
  by destruct (streamedContent monitorData).
Qed.

End Properties.

(** ** A sample request *)

Definition stringify_stub (v : jsval) : option string :=
  match v with
  | JUndefined => None
  | _ => Some "{...}"
  end.

Definition chat_request : Request :=
  {| method := "POST"; path := "/v1/messages";
     originalUrl := "/v1/messages"; url := "/v1/messages";
     body := JObj {["model" := JStr "claude-opus-4-5-thinking"]} |}.

Definition chat_stream : MonitorData :=
  {| streamedContent := ["Hello"; ", "; "world"];
     usage_input_tokens := S754_finite false 12 0;
     usage_output_tokens := S754_finite false 3 0 |}.

Definition no_stream : MonitorData :=
  {| streamedContent := [];
     usage_input_tokens := S754_zero false;
     usage_output_tokens := S754_zero false |}.

Definition not_found_capture : Capture :=
  {| responseBody := JStr "Not Found"; inputTokens := zero;
     outputTokens := zero |}.

Definition streamed_data : LogData :=
  {| log_method := "POST"; log_url := "/v1/messages"; log_status := 200;
     log_duration := 40;
     log_request_body := JObj {["model" := JStr "claude-opus-4-5-thinking"]};
     log_response_body := JStr "Hello, world";
     log_input_tokens := JNum (S754_finite false 12 0);
     log_output_tokens := JNum (S754_finite false 3 0);
     log_model := JStr "claude-opus-4-5-thinking";
     log_error := JNull |}.

Definition failed_data : LogData :=
  {| log_method := "POST"; log_url := "/v1/messages"; log_status := 404;
     log_duration := 40;
     log_request_body := JObj {["model" := JStr "claude-opus-4-5-thinking"]};
     log_response_body := JStr "Not Found";
     log_input_tokens := zero;
     log_output_tokens := zero;
     log_model := JStr "claude-opus-4-5-thinking";
     log_error := JStr "Not Found" |}.

Lemma on_finish_streamed :
  on_finish stringify_stub (λ _, "") 100 140 chat_request 200 chat_stream
    initial_capture = Some streamed_data.
Proof. reflexivity. Qed.

Lemma on_finish_failed :
  on_finish stringify_stub (λ _, "") 100 140 chat_request 404 no_stream
    not_found_capture = Some failed_data.
Proof. reflexivity. Qed.

Lemma health_and_metrics_are_not_logged_witness :
  on_finish stringify_stub (λ _, "") 100 140
    {| method := "GET"; path := "/health"; originalUrl := "/health";
       url := "/health"; body := JUndefined |} 200 no_stream initial_capture
  = None.
Proof.
  apply (proj1 (health_and_metrics_are_not_logged stringify_stub (λ _, "")
                  100 140 _ 200 no_stream initial_capture)).
  left. reflexivity.
Defined.

Lemma logged_text_is_bounded_witness :
  within_bound (log_response_body streamed_data)
  ∧ (∀ s, log_response_body streamed_data = JStr s →
          row_response_body (logRequest_row stringify_stub streamed_data)
          = JStr s)
  ∧ within_bound (row_request_body (logRequest_row stringify_stub streamed_data)).
Proof.
  apply (logged_text_is_bounded stringify_stub (λ _, "") 100 140 chat_request
           200 chat_stream initial_capture).
  exact on_finish_streamed.
Defined.

Lemma bodies_within_limit_are_logged_whole_witness :
  (match final_body chat_stream initial_capture with
   | JStr s => too_long s = false
   | _ => True
   end → log_response_body streamed_data = final_body chat_stream initial_capture)
  ∧ (match request_text stringify_stub chat_request with
     | Some s => too_long s = false
     | None => True
     end → log_request_body streamed_data = body chat_request).
Proof.
  apply (bodies_within_limit_are_logged_whole stringify_stub (λ _, "") 100 140
           chat_request 200 chat_stream initial_capture).
  exact on_finish_streamed.
Defined.

Lemma error_follows_status_witness :
  ((404 < 400)%Z →
   log_error failed_data = JNull
   ∧ row_error (logRequest_row stringify_stub failed_data) = JNull)
  ∧ ((400 ≤ 404)%Z →
     ∀ s, final_body no_stream not_found_capture = JStr s →
          log_error failed_data = JStr s
          ∧ row_error (logRequest_row stringify_stub failed_data)
            = if String.eqb s "" then JNull else JStr s).
Proof.
  apply (error_follows_status stringify_stub (λ _, "") 100 140 chat_request
           404 no_stream not_found_capture).
  exact on_finish_failed.
Defined.

Lemma streamed_response_overrides_capture_witness :
  on_finish stringify_stub (λ _, "") 100 140 chat_request 200 chat_stream
    initial_capture
  = on_finish stringify_stub (λ _, "") 100 140 chat_request 200 chat_stream
      not_found_capture.
Proof.
  apply (streamed_response_overrides_capture stringify_stub (λ _, "") 100 140
           chat_request 200 chat_stream); [discriminate | reflexivity].
Defined.

End Monitor.

(* ===================================================================== *)
(** * The contracts of the database module                                *)
(* ===================================================================== *)

Module DatabaseContract.
Import JS Database DatabaseMore.

(** ** What the environment decides *)

(** The driver is at hand: it was loaded before, or no failure was stored
    and [require] succeeds now, at once or after the rebuild that a version
    mismatch asks for. *)
Definition module_loads (w : World) (s : Module) : bool :=
  Database s
  || match moduleLoadError s with
     | Some _ => false
     | None =>
         match require_better_sqlite3 w with
         | Return _ => true
         | Throw error =>
             isModuleVersionError w error && attemptAutoRebuild w error
             && match reload_better_sqlite3 w with
                | Return _ => true
                | Throw _ => false
                end
         end
     end.

(** An open connection to [dbPath] is in the cache. *)
Definition has_open_connection (s : Module) (dbPath : string) : bool :=
  match dbCache s !! dbPath with
  | Some c => open c
  | None => false
  end.

(** The driver opens the file at [dbPath]. *)
Definition driver_opens (w : World) (dbPath : string) : bool :=
  match new_Db w dbPath with
  | Return _ => true
  | Throw _ => false
  end.

(** A connection to the database at [dbPath] can be opened: the driver is
    at hand, and a connection is open already or the driver opens the
    file. *)
Definition can_connect (w : World) (s : Module) (dbPath : string) : bool :=
  module_loads w s && (has_open_connection s dbPath || driver_opens w dbPath).

(** The error of the [SQLITE_CANTOPEN] branch of [getAuthStatus]. *)
Definition not_found_error (dbPath : string) : JsError :=
  Error ("Database not found at " ++ dbPath ++ ". "
         ++ "Make sure Antigravity is installed and you are logged in.").

(** The message of the [NativeModuleError] that [loadDatabaseModule] raises
    for a version mismatch, after a rebuild that succeeded or failed. *)
Definition rebuild_message (rebuilt : bool) : string :=
  if rebuilt then
    "Native module rebuild completed. Please restart the server to apply the fix."
  else
    "Failed to auto-rebuild native module. Please run manually:" ++ nl
    ++ "  npm rebuild better-sqlite3" ++ nl
    ++ "Or if using npx, find the package location in the error and run:" ++ nl
    ++ "  cd /path/to/better-sqlite3 && npm rebuild".

(** ** Loading and connecting *)

Lemma loadDatabaseModule_outcome w s :
  match (loadDatabaseModule w s).1 with
  | Return _ => module_loads w s = true
  | Throw _ => module_loads w s = false
  end.
Proof.
  unfold loadDatabaseModule, module_loads, mbind, M_bind, read, try_catch,
    lift, modify, throw.
  destruct (Database s); [done|].
  destruct (moduleLoadError s); [done|].
  destruct (require_better_sqlite3 w) as [[]|e]; [done|].
  destruct (isModuleVersionError w e); [|done].
  destruct (attemptAutoRebuild w e); [|done].
  by destruct (reload_better_sqlite3 w).
Qed.

(** A version mismatch that the rebuild does not repair raises a
    [NativeModuleError] and stores it. *)
Lemma loadDatabaseModule_mismatch w s e0 :
  Database s = false → moduleLoadError s = None →
  require_better_sqlite3 w = Throw e0 → isModuleVersionError w e0 = true →
  module_loads w s = false →
  let e := NativeModuleError w (rebuild_message (attemptAutoRebuild w e0))
             (attemptAutoRebuild w e0) (attemptAutoRebuild w e0) in
  loadDatabaseModule w s = (Throw e, set_moduleLoadError e s).
Proof.
  intros Hd He Hreq Hver. unfold module_loads.
  rewrite Hd, He, Hreq, Hver. cbn [orb andb].
  unfold loadDatabaseModule, mbind, M_bind, read, try_catch, lift, modify, throw.
  rewrite Hd, He, Hreq, Hver.
  destruct (attemptAutoRebuild w e0); [|done].
  by destruct (reload_better_sqlite3 w).
Qed.

Lemma getDatabaseConnection_outcome w dbPath s :
  match (getDatabaseConnection w dbPath s).1 with
  | Return db => db = dbPath ∧ can_connect w s dbPath = true
  | Throw _ => can_connect w s dbPath = false
  end.
Proof.
  unfold getDatabaseConnection, can_connect, has_open_connection, driver_opens.
  pose proof (loadDatabaseModule_outcome w s) as Hload.
  pose proof (loadDatabaseModule_dbCache w s) as Hsame.
  unfold mbind at 1, M_bind at 1.
  destruct (loadDatabaseModule w s) as [[[]|e0] s1]; cbn [fst snd] in *;
    rewrite Hload; [|done]. cbn [andb].
  unfold mbind at 1, M_bind at 1, read. rewrite Hsame.
  destruct (dbCache s !! dbPath) as [c|].
  - destruct (open c); [done|].
    unfold mbind, M_bind, modify, lift, mret, M_ret.
    by destruct (new_Db w dbPath) as [[]|e].
  - unfold mbind, M_bind, modify, lift, mret, M_ret.
    by destruct (new_Db w dbPath) as [[]|e].
Qed.

(** With the driver at hand and no open connection in the cache, the error
    of the driver's constructor is the error of [getDatabaseConnection]. *)
Lemma getDatabaseConnection_driver_failure w dbPath s e :
  module_loads w s = true → has_open_connection s dbPath = false →
  new_Db w dbPath = Throw e →
  ∃ s1, getDatabaseConnection w dbPath s = (Throw e, s1).
Proof.
  intros Hloads Hcache Hopen.
  unfold getDatabaseConnection, has_open_connection in *.
  pose proof (loadDatabaseModule_outcome w s) as Hload.
  pose proof (loadDatabaseModule_dbCache w s) as Hsame.
  unfold mbind at 1, M_bind at 1.
  destruct (loadDatabaseModule w s) as [[[]|e0] s1]; cbn [fst snd] in *;
    [|congruence].
  unfold mbind at 1, M_bind at 1, read. rewrite Hsame.
  destruct (dbCache s !! dbPath) as [c|].
  - rewrite Hcache. unfold mbind, M_bind, modify, lift. rewrite Hopen. eauto.
  - unfold mbind, M_bind, lift. rewrite Hopen. eauto.
Qed.

(** A failure of [loadDatabaseModule] reaches the [catch] block of
    [getAuthStatus]. *)
Lemma getAuthStatus_load_failure w dbPath s e s1 :
  loadDatabaseModule w s = (Throw e, s1) →
  getAuthStatus w dbPath s = getAuthStatus_catch dbPath e s1.
Proof.
  intros H. apply getAuthStatus_connection_failure.
  unfold getDatabaseConnection. by apply bind_Throw.
Qed.

(** The [catch] block rethrows a [NativeModuleError] as it is, unless its
    code is [SQLITE_CANTOPEN]. *)
Lemma getAuthStatus_catch_native dbPath e s :
  err_native e = true → err_code e ≠ Some "SQLITE_CANTOPEN" →
  getAuthStatus_catch dbPath e s = (Throw e, s).
Proof.
  intros Hnative Hcode. unfold getAuthStatus_catch.
  rewrite bool_decide_eq_false_2 by done. rewrite Hnative.
  by destruct (_ || _).
Qed.

Lemma rebuild_message_not_found rebuilt :
  includes "Database not found" (rebuild_message rebuilt) = false.
Proof. by destruct rebuilt. Qed.

(** What the [try] block returns is what [JSON.parse] made of the value
    column of the row. *)
Lemma getAuthStatus_try_parsed w dbPath s v s' :
  getAuthStatus_try w dbPath s = (Return v, s') →
  ∃ text o,
    stmt_get w dbPath = Return (Some {| value := Some text |})
    ∧ text ≠ ""
    ∧ JSON_parse w text = Return v
    ∧ v = JObj o ∧ truthy (get o "apiKey") = true.
Proof.
  unfold getAuthStatus_try. intros H.
  apply bind_Return_inv in H as (db & s1 & Hconn & H).
  apply getDatabaseConnection_Return in Hconn as (-> & _).
  apply bind_Return_inv in H as (s2 & s3 & _ & H).
  apply bind_Return_inv in H as (_ & s4 & _ & H).
  apply bind_Return_inv in H as (row & s5 & Hrow & H).
  destruct row as [[[text|]]|]; try done.
  destruct (String.eqb text "") eqn:Hempty; [done|].
  apply bind_Return_inv in H as (authData & s6 & Hparse & H).
  apply bind_Return_inv in H as (apiKey & s7 & Hkey & H).
  destruct (truthy apiKey) eqn:Htruthy; [|done].
  injection H as <- <-.
  unfold lift in Hrow, Hparse, Hkey.
  injection Hrow as Hrow _. injection Hparse as Hparse _.
  unfold read_property in Hkey.
  destruct authData as [| | | | | |o]; try done; injection Hkey as <- _;
    try done.
  exists text, o. repeat split; try done.
  by apply String.eqb_neq.
Qed.

(** ** The contracts *)

(** C10. [isDatabaseAccessible(path)] always completes normally with a
    boolean, whatever the environment does.  The boolean is [true] exactly
    when a connection can be opened: the driver is loaded or loads now, and
    an open connection to the path is cached or the driver opens the file.
    It is [false] otherwise: in particular when the native module does not
    load, and when no connection is cached and the driver cannot open the
    file (the file does not exist). *)
Theorem isDatabaseAccessible_total (w : World) (dbPath : string) (s : Module) :
  ∃ b : bool,
    isDatabaseAccessible w dbPath s
      = (Return b, (getDatabaseConnection w dbPath s).2)
    ∧ b = module_loads w s
          && (has_open_connection s dbPath || driver_opens w dbPath)
    ∧ (module_loads w s = true → new_Db w dbPath = Return tt → b = true)
    ∧ (module_loads w s = true → has_open_connection s dbPath = true →
       b = true)
    ∧ (module_loads w s = false → b = false)
    ∧ (∀ e, has_open_connection s dbPath = false →
            new_Db w dbPath = Throw e → b = false).
Proof.
  exists (can_connect w s dbPath).
  split; [|unfold can_connect, driver_opens; split; [done|]].
  - unfold isDatabaseAccessible, try_catch.
    pose proof (getDatabaseConnection_outcome w dbPath s) as H.
    unfold mbind, M_bind.
    destruct (getDatabaseConnection w dbPath s) as [[db|e] s1];
      cbn [fst snd] in *.
    + destruct H as [_ ->]. done.
    + by rewrite H.
  - repeat split.
    + intros -> ->. apply orb_true_r.
    + by intros -> ->.
    + by intros ->.
    + intros e -> ->. apply andb_false_r.
Qed.

(** C8 (as the code has it). For every database path:
    - a value [getAuthStatus(path)] returns is the auth record parsed from
      the stored value: the row of the query has a non-empty value,
      [JSON.parse] of it is the value returned, and it is an object whose
      [apiKey] is truthy (so non-empty when it is a string);
    - it does return that record when a connection can be opened, the
      statement prepares, and the row parses to such an object;
    - when the driver is at hand and fails to open the file with an error
      whose [code] is ['SQLITE_CANTOPEN'], the error thrown is
      ['Database not found at <path>. Make sure Antigravity is installed
      and you are logged in.'], whose message contains
      ['Database not found'];
    - when the database cannot be opened because the native module does
      not load, and the loader raises a [NativeModuleError], that error is
      rethrown unchanged and is not classified as not found: so it is for
      a version mismatch that the rebuild does not repair, where the
      message is the loader's and does not contain ['Database not
      found']. *)
Theorem getAuthStatus_contract (w : World) (dbPath : string) (s : Module) :
  (∀ v s', getAuthStatus w dbPath s = (Return v, s') →
     ∃ text o,
       can_connect w s dbPath = true
       ∧ stmt_get w dbPath = Return (Some {| value := Some text |})
       ∧ text ≠ ""
       ∧ JSON_parse w text = Return v
       ∧ v = JObj o ∧ truthy (get o "apiKey") = true)
  ∧ (∀ text o,
       can_connect w s dbPath = true → prepare w dbPath = Return tt →
       stmt_get w dbPath = Return (Some {| value := Some text |}) →
       text ≠ "" → JSON_parse w text = Return (JObj o) →
       truthy (get o "apiKey") = true →
       (getAuthStatus w dbPath s).1 = Return (JObj o))
  ∧ (∀ e, module_loads w s = true → has_open_connection s dbPath = false →
          new_Db w dbPath = Throw e → err_code e = Some "SQLITE_CANTOPEN" →
          (getAuthStatus w dbPath s).1 = Throw (not_found_error dbPath)
          ∧ includes "Database not found"
              (err_message (not_found_error dbPath)) = true)
  ∧ (∀ e s1, loadDatabaseModule w s = (Throw e, s1) →
             err_native e = true → err_code e ≠ Some "SQLITE_CANTOPEN" →
             getAuthStatus w dbPath s = (Throw e, s1))
  ∧ (∀ e0, Database s = false → moduleLoadError s = None →
           require_better_sqlite3 w = Throw e0 →
           isModuleVersionError w e0 = true →
           module_loads w s = false →
           native_code w ≠ Some "SQLITE_CANTOPEN" →
           let e := NativeModuleError w
                      (rebuild_message (attemptAutoRebuild w e0))
                      (attemptAutoRebuild w e0) (attemptAutoRebuild w e0) in
           getAuthStatus w dbPath s = (Throw e, set_moduleLoadError e s)
           ∧ includes "Database not found" (err_message e) = false).
Proof.
  split; [|split; [|split; [|split]]].
  - intros v s' H. unfold getAuthStatus, try_catch in H.
    destruct (getAuthStatus_try w dbPath s) as [[v0|e0] s0] eqn:Htry.
    + injection H as <- <-.
      destruct (getAuthStatus_try_parsed _ _ _ _ _ Htry)
        as (text & o & Hrow & Htext & Hparse & Hv & Hkey).
      exists text, o. split; [|done].
      unfold getAuthStatus_try in Htry.
      apply bind_Return_inv in Htry as (db & s1 & Hconn & _).
      pose proof (getDatabaseConnection_outcome w dbPath s) as Hout.
      rewrite Hconn in Hout. by destruct Hout.
    + destruct (getAuthStatus_catch_throws dbPath e0 s0) as [e He].
      rewrite He in H. done.
  - intros text o Hcan Hprep Hrow Htext Hparse Hkey.
    pose proof (getDatabaseConnection_outcome w dbPath s) as Hout.
    destruct (getDatabaseConnection w dbPath s) as [[db|e] s1] eqn:Hconn;
      cbn [fst] in Hout; [|congruence].
    destruct (getDatabaseConnection_Return _ _ _ _ _ Hconn)
      as (_ & _ & _ & c & Hc & _).
    unfold getAuthStatus.
    erewrite try_catch_Return; [reflexivity|].
    rewrite (getAuthStatus_try_connected _ _ _ _ _ _ Hconn Hc (λ _, Hprep)).
    unfold mbind at 1, M_bind at 1, lift at 1. rewrite Hrow.
    unfold read_row. rewrite (proj2 (String.eqb_neq _ _) Htext).
    unfold mbind, M_bind, lift. rewrite Hparse. cbn [read_property].
    by rewrite Hkey.
  - intros e Hloads Hcache Hopen Hcode.
    destruct (getDatabaseConnection_driver_failure _ _ _ _ Hloads Hcache Hopen)
      as [s1 Hconn].
    rewrite (getAuthStatus_connection_failure _ _ _ _ _ Hconn).
    unfold getAuthStatus_catch. rewrite bool_decide_eq_true_2 by done.
    split; [reflexivity | apply not_found_message].
  - intros e s1 Hload Hnative Hcode.
    rewrite (getAuthStatus_load_failure _ _ _ _ _ Hload).
    by apply getAuthStatus_catch_native.
  - intros e0 Hd He Hreq Hver Hloads Hcode e.
    rewrite (getAuthStatus_load_failure _ _ _ _ _
               (loadDatabaseModule_mismatch _ _ _ Hd He Hreq Hver Hloads)).
    split; [by apply getAuthStatus_catch_native|].
    apply rebuild_message_not_found.
Qed.

(** ** The concrete cases *)

Definition auth_record : gmap string jsval :=
  {["apiKey" := JStr "test-api-key";
    "email" := JStr "test@example.com";
    "name" := JStr "Test User"]}.

(** C8 as stated fails.  The native module was built for another Node.js
    version and the rebuild fails: the database cannot be opened
    ([isDatabaseAccessible] answers [false]), [getAuthStatus] throws, and
    the error is the [NativeModuleError] of the loader, whose message does
    not contain ['Database not found']. *)
Lemma getAuthStatus_module_failure_not_classified :
  (isDatabaseAccessible stale_module_world "./state.vscdb" fresh_module).1
    = Return false
  ∧ ∃ e, (getAuthStatus stale_module_world "./state.vscdb" fresh_module).1
         = Throw e
         ∧ err_native e = true
         ∧ includes "Database not found" (err_message e) = false.
Proof. split; [reflexivity|]. eexists. repeat split; reflexivity. Qed.

Lemma getAuthStatus_contract_witness :
  ((getAuthStatus test_world "./test-database.vscdb" fresh_module).1
     = Return (JObj auth_record))
  ∧ ((getAuthStatus test_world "./non-existent.db" fresh_module).1
       = Throw (not_found_error "./non-existent.db")
     ∧ includes "Database not found"
         (err_message (not_found_error "./non-existent.db")) = true)
  ∧ (let e := NativeModuleError stale_module_world (rebuild_message false)
                false false in
     getAuthStatus stale_module_world "./state.vscdb" fresh_module
       = (Throw e, set_moduleLoadError e fresh_module)
     ∧ includes "Database not found" (err_message e) = false).
Proof.
  split; [|split].
  - apply (proj1 (proj2 (getAuthStatus_contract test_world
                           "./test-database.vscdb" fresh_module))
             "<auth status>" auth_record); try reflexivity; done.
  - apply (proj1 (proj2 (proj2
             (getAuthStatus_contract test_world "./non-existent.db"
                fresh_module)))
             {| err_code := Some "SQLITE_CANTOPEN";
                err_message := "unable to open database file";
                err_native := false |}); reflexivity.
  - apply (proj2 (proj2 (proj2 (proj2
             (getAuthStatus_contract stale_module_world "./state.vscdb"
                fresh_module))))
             {| err_code := Some "ERR_DLOPEN_FAILED";
                err_message := "The module was compiled against a different Node.js version";
                err_native := false |}); try reflexivity; done.
Defined.

End DatabaseContract.

(* ===================================================================== *)
(** * Endpoint failover                                                   *)
(* ===================================================================== *)

Module Failover.
Import AccountPool Dispatcher.
#[local] Open Scope Z_scope.

(** ** The pool during selection *)










(** ** The outcomes of a request *)




Section Request.

Variable cfg : Config.
Variables E0 E1 : string.
Variable transport : nat → string → string → TransportResult.
Variable credentials : string → option (string * string).
Variables r0 r1 : HttpResponse.

Hypothesis budget : (1 ≤ maxCapacityRetries cfg)%nat.
Hypothesis E0_answer : ∀ n tok, transport n E0 tok = Response r0.
Hypothesis E0_status : status r0 = 503.
Hypothesis E0_reason : In "MODEL_CAPACITY_EXHAUSTED" (reasons r0).
Hypothesis E1_answer : ∀ n tok, transport n E1 tok = Response r1.
Hypothesis E1_status : 200 ≤ status r1 < 300.

#[local] Abbreviation step := (step cfg [E0; E1] transport credentials).
#[local] Abbreviation run := (run cfg [E0; E1] transport credentials).









End Request.

(** ** The scenarios *)

(** An account whose rate limit ends at time 50. *)
Definition limited_account : Account :=
  {| email := "test@example.com"; rateLimitedUntil := Some 50;
     consecutiveFailures := 0; lastUsed := 0; invalid := false |}.


(** A request that first waits for its only account fails over all the
    same. *)
Example failover_after_wait :
  Dispatcher.run test_config [daily; prod] mock_fetch mock_credentials 10
      (start [limited_account] 0) SELECTING
  = ([Wait 50; Call daily; Wait 10; Call prod;
      Emit (Payload (TextDelta "Stream success")); Emit DoneEvent],
     Some Succeeded).
Proof. reflexivity. Qed.





End Failover.
